(** * SafeGoalFlow: the safety barrier (signed distance field and its sampling)

    A shallow embedding of [navsim/agents/goalflow/safety_barrier.py].

    Numbers.  Tensor entries are modelled as exact rationals ([Q]); rounding
    of the tensor dtype, infinities and NaN are not modelled.  Equalities
    that hold between the very same expressions are stated with [=];
    equalities that need arithmetic are stated with [==] (equality of
    rationals).  The source divides by [pixel_size], [H - 1] and [W - 1];
    where one of them is zero it produces an infinity or a NaN, which [Q]
    has not (its [x / 0] is [0]).  The model is faithful for
    [pixel_size <> 0] and [H, W >= 2], and the properties that state a
    coordinate or a gradient take these as hypotheses.

    Tensors.  A tensor is a nested list, outermost axis first.  A tensor of
    shape [B, C, H, W] is a [tensor4]; shapes are checked by the boolean
    [shape4].

    Library primitives.  [torch.sigmoid] and kornia's [distance_transform]
    are parameters of the development: total functions, faithful where the
    library returns, that is for an occupancy input with at least two
    channels, on which the transform returns a tensor of the mask's shape.
    [F.pad], [F.conv2d] and [F.grid_sample] are modelled from their
    documented semantics for the modes the source selects.

    Exceptions.  A call either returns a value or raises an exception, named
    by its class name. *)

From Stdlib Require Import String.
From Stdlib Require Import QArith Qround Qminmax Qabs ZArith List Lia Lqa Bool.
Import ListNotations.
Open Scope Q_scope.

(** ** Outcomes of a call *)

Inductive outcome (A : Type) : Type :=
| Returns (a : A)
| Raises (cls : string).
Arguments Returns {A} a.
Arguments Raises {A} cls.

Definition bind {A B : Type} (m : outcome A) (k : A -> outcome B) : outcome B :=
  match m with
  | Returns a => k a
  | Raises cls => Raises cls
  end.

Notation "x <- m ;; k" := (bind m (fun x => k))
  (at level 61, m at next level, right associativity).

(** ** Tensors as nested lists *)

Definition grid := list (list Q).
Definition tensor4 := list (list grid).

Definition map2 {A B C : Type} (f : A -> B -> C) : list A -> list B -> list C :=
  fix go (xs : list A) (ys : list B) : list C :=
    match xs, ys with
    | x :: xs', y :: ys' => f x y :: go xs' ys'
    | _, _ => []
    end.

Definition map_grid (f : Q -> Q) (g : grid) : grid := map (map f) g.
Definition map4 (f : Q -> Q) (t : tensor4) : tensor4 := map (map (map_grid f)) t.
Definition zip_grid (f : Q -> Q -> Q) (g h : grid) : grid := map2 (map2 f) g h.
Definition zip4 (f : Q -> Q -> Q) (t u : tensor4) : tensor4 :=
  map2 (map2 (zip_grid f)) t u.

(** [t[b, c, i, j]], with [0] outside the tensor. *)
Definition grid_cell (g : grid) (i j : nat) : Q := nth j (nth i g []) 0.
Definition cell (t : tensor4) (b c i j : nat) : Q :=
  grid_cell (nth c (nth b t []) []) i j.

Definition shape2 (g : grid) (H W : nat) : bool :=
  (length g =? H)%nat && forallb (fun row => (length row =? W)%nat) g.
Definition shape3 (cs : list grid) (C H W : nat) : bool :=
  (length cs =? C)%nat && forallb (fun g => shape2 g H W) cs.
Definition shape4 (t : tensor4) (B C H W : nat) : bool :=
  (length t =? B)%nat && forallb (fun cs => shape3 cs C H W) t.

(** Python's slice [l[lo:hi]]. *)
Definition slice {A : Type} (lo hi : nat) (l : list A) : list A :=
  firstn (hi - lo) (skipn lo l).

(** ** The module's configuration *)

Record SafetyBarrier : Type := {
  pixel_size : Q;
  ego_radius : Q;
  bev_range : Q
}.

(** [SafetyBarrier.__init__]: the three arguments are stored as they come. *)
Definition __init__ (pixel_size ego_radius bev_range : Q) : outcome SafetyBarrier :=
  Returns {| pixel_size := pixel_size;
             ego_radius := ego_radius;
             bev_range := bev_range |}.

(** ** compute_sdf *)

Section ComputeSdf.

(** [torch.sigmoid], applied to each entry: a library primitive. *)
Variable sigmoid : Q -> Q.
(** [kornia.contrib.distance_transform]: a library function. *)
Variable distance_transform : tensor4 -> tensor4.

(** [torch.sigmoid(semantics[:, 1:2, :, :])] *)
Definition road_prob (semantics : tensor4) : tensor4 :=
  map4 sigmoid (map (slice 1 2) semantics).

(** [(road_prob > threshold).float()] *)
Definition gt_float (threshold p : Q) : Q :=
  if Qlt_le_dec threshold p then 1 else 0.

Definition drivable_mask (semantics : tensor4) (threshold : Q) : tensor4 :=
  map4 (gt_float threshold) (road_prob semantics).

(** [1.0 - drivable_mask] *)
Definition non_drivable_mask (semantics : tensor4) (threshold : Q) : tensor4 :=
  map4 (fun m => 1 - m) (drivable_mask semantics threshold).

(** [dist_to_boundary - dist_to_drivable], the field before scaling.  Both
    operands have the shape of the mask, so the subtraction pairs the
    cells one to one. *)
Definition raw_sdf (semantics : tensor4) (threshold : Q) : tensor4 :=
  let dist_to_boundary := distance_transform (drivable_mask semantics threshold) in
  let dist_to_drivable := distance_transform (non_drivable_mask semantics threshold) in
  zip4 Qminus dist_to_boundary dist_to_drivable.

(** The source has no [raise] of its own.  On an input with fewer than two
    channels the slice [1:2] is empty and the library call fails; the
    properties of [compute_sdf] take [C >= 2] and a transform that returns
    a tensor of the mask's shape. *)
Definition compute_sdf (self : SafetyBarrier) (semantics : tensor4) (threshold : Q)
  : outcome tensor4 :=
  let sdf := raw_sdf semantics threshold in
  let sdf := map4 (fun v => v * pixel_size self - ego_radius self) sdf in
  Returns sdf.

End ComputeSdf.

(** ** Library primitives used by get_gradients *)

(** Modelled from the spec: [F.pad] is a primitive of the tensor library,
    not part of the sources.  Section 4.2: the field is padded "by one cell
    on each side using edge-replication".  This is
    [F.pad(t, (1, 1, 1, 1), mode='replicate')]: one more cell on each side
    of the last two axes, holding the value of the nearest edge cell.  The
    library rejects an empty axis; the properties below take [H, W >= 1]. *)
Definition replicate1 {A : Type} (l : list A) : list A :=
  match l with
  | [] => []
  | x :: _ => x :: l ++ [last l x]
  end.

(** Rows first, then the list of rows: the corners repeat the corner cells. *)
Definition pad_replicate_grid (g : grid) : grid := replicate1 (map replicate1 g).

(** Modelled from the spec: [F.pad(sdf, (1, 1, 1, 1), mode='replicate')] on a
    [B, C, H, W] tensor, every grid padded as above. *)
Definition pad_replicate (t : tensor4) : tensor4 := map (map pad_replicate_grid) t.

Definition Qsum (l : list Q) : Q := fold_right Qplus 0 l.

(** Modelled from the spec: [F.conv2d] is a primitive of the tensor
    library, not part of the sources.  Section 4.2: the padded field is
    convolved "with two fixed 3x3 directional kernels".  The library slides
    the kernel without flipping it (no padding, stride one): the output
    cell [(i, j)] is the sum of [weight[a][b] * img[i + a][j + b]] over the
    3x3 window. *)
Definition window3 (img weight : grid) (i j : nat) : Q :=
  Qsum (map (fun a =>
    Qsum (map (fun b => grid_cell weight a b * grid_cell img (i + a) (j + b))
              (seq 0 3)))
    (seq 0 3)).

(** One output cell per position of the window inside the image. *)
Definition correlate3 (img weight : grid) : grid :=
  map (fun i => map (fun j => window3 img weight i j)
                    (seq 0 (length (hd [] img) - 2)))
      (seq 0 (length img - 2)).

(** Modelled from the spec: [F.conv2d(input, weight)] for a weight of shape
    [1, 1, 3, 3].  The library raises [RuntimeError] unless the input has
    exactly one channel. *)
Definition conv2d (input : tensor4) (weight : grid) : outcome tensor4 :=
  if forallb (fun chans => (length chans =? 1)%nat) input
  then Returns (map (map (fun img => correlate3 img weight)) input)
  else Raises "RuntimeError".

(** Modelled from the spec: [F.grid_sample] is a primitive of the tensor
    library, not part of the sources.  Section 4.2: "bilinear interpolation
    ... at the normalized coordinate, with replicate/clamp behavior at the
    boundary".  This is [F.grid_sample(input, grid, align_corners=True,
    mode='bilinear', padding_mode='border')]: a normalized coordinate in
    [-1, 1] addresses the cell centres [0 .. size - 1], a coordinate outside
    is clipped to that range, and the four cells around the coordinate are
    weighted by the opposite areas; a neighbour outside the grid
    contributes nothing. *)
Definition unnormalize (coord : Q) (size : nat) : Q :=
  ((coord + 1) / 2) * inject_Z (Z.of_nat size - 1).

(** Border padding: the coordinate is clipped to [0, size - 1]. *)
Definition clip_coordinates (coord : Q) (size : nat) : Q :=
  Qmin (inject_Z (Z.of_nat size - 1)) (Qmax coord 0).

(** Is [(iy, ix)] a cell of an [H x W] grid? *)
Definition within_bounds (iy ix : Z) (H W : nat) : bool :=
  ((0 <=? iy) && (iy <? Z.of_nat H) && (0 <=? ix) && (ix <? Z.of_nat W))%Z.

(** The cell [(iy, ix)], or nothing (zero) outside the grid. *)
Definition pixel (img : grid) (iy ix : Z) : Q :=
  if within_bounds iy ix (length img) (length (hd [] img))
  then grid_cell img (Z.to_nat iy) (Z.to_nat ix)
  else 0.

(** Modelled from the spec: the bilinear sample of one grid at the
    normalized coordinate [(x, y)], [x] along the columns and [y] along the
    rows.  [nw], [ne], [sw] and [se] are the weights of the four cells
    around the clipped coordinate. *)
Definition bilinear_sample (img : grid) (x y : Q) : Q :=
  let H := length img in
  let W := length (hd [] img) in
  let ix := clip_coordinates (unnormalize x W) W in
  let iy := clip_coordinates (unnormalize y H) H in
  let ix_nw := Qfloor ix in
  let iy_nw := Qfloor iy in
  let ix_ne := (ix_nw + 1)%Z in
  let iy_ne := iy_nw in
  let ix_sw := ix_nw in
  let iy_sw := (iy_nw + 1)%Z in
  let ix_se := (ix_nw + 1)%Z in
  let iy_se := (iy_nw + 1)%Z in
  let nw := (inject_Z ix_se - ix) * (inject_Z iy_se - iy) in
  let ne := (ix - inject_Z ix_sw) * (inject_Z iy_sw - iy) in
  let sw := (inject_Z ix_ne - ix) * (iy - inject_Z iy_ne) in
  let se := (ix - inject_Z ix_nw) * (iy - inject_Z iy_nw) in
  pixel img iy_nw ix_nw * nw + pixel img iy_ne ix_ne * ne
  + pixel img iy_sw ix_sw * sw + pixel img iy_se ix_se * se.

(** One batch element: every channel is sampled at every point. *)
Definition sample_element (chans : list grid) (pts : list (list (Q * Q))) : list grid :=
  map (fun img => map (map (fun p => bilinear_sample img (fst p) (snd p))) pts) chans.

(** Modelled from the spec: [F.grid_sample] on [input] of shape
    [B, C, H, W] and [grid] of shape [B, H_out, W_out, 2], with [(x, y)] in
    the last axis.  The library raises [RuntimeError] when the two batch
    sizes differ. *)
Definition grid_sample (input : tensor4) (grid : list (list (list (Q * Q))))
  : outcome tensor4 :=
  if (length input =? length grid)%nat
  then Returns (map2 sample_element input grid)
  else Raises "RuntimeError".

(** ** metric_to_grid and get_gradients *)

(** [torch.clamp(v, lo, hi)] *)
Definition clamp (v lo hi : Q) : Q := Qmin (Qmax v lo) hi.

(** A trajectory point is the pair [(forward, lateral)] of the last axis;
    the result is the pair [(norm_x, norm_y)].  Faithful for
    [pixel_size <> 0] and [H, W >= 2], where no division is by zero. *)
Definition metric_to_grid_point (self : SafetyBarrier) (H W : nat) (p : Q * Q) : Q * Q :=
  let pixel_y := fst p / pixel_size self in
  let pixel_x := snd p / pixel_size self + inject_Z (Z.of_nat W) / 2 in
  let norm_x := (pixel_x / inject_Z (Z.of_nat W - 1)) * 2 - 1 in
  let norm_y := (pixel_y / inject_Z (Z.of_nat H - 1)) * 2 - 1 in
  let norm_x := clamp norm_x (-1) 1 in
  let norm_y := clamp norm_y (-1) 1 in
  (norm_x, norm_y).

(** [trajs] has shape [B, N, 2]; the result has the same shape. *)
Definition metric_to_grid (self : SafetyBarrier) (trajs : list (list (Q * Q))) (H W : nat)
  : list (list (Q * Q)) :=
  map (map (metric_to_grid_point self H W)) trajs.

(** The two kernels of [get_gradients], each entry divided by 8. *)
Definition sobel_x : grid :=
  map_grid (fun v => v / 8) [[-1; 0; 1]; [-2; 0; 2]; [-1; 0; 1]].
Definition sobel_y : grid :=
  map_grid (fun v => v / 8) [[-1; -2; -1]; [0; 0; 0]; [1; 2; 1]].

(** [sdf.shape[-2:]] *)
Definition height (t : tensor4) : nat := length (hd [] (hd [] t)).
Definition width (t : tensor4) : nat := length (hd [] (hd [] (hd [] t))).

(** [t.view(B, N, 1)] of a [B, 1, 1, N] tensor: the [N] entries of each
    batch element, each in a list of its own. *)
Definition view_B_N_1 (t : tensor4) : list (list (list Q)) :=
  map (fun chans => map (fun v => [v]) (concat (concat chans))) t.

(** Returns the pair [(h_val, h_grad)] of shapes [B, N, 1] and [B, N, 2].
    The gradient is divided by [pixel_size]: faithful for
    [pixel_size <> 0]. *)
Definition get_gradients (self : SafetyBarrier) (sdf : tensor4) (trajs : list (list (Q * Q)))
  : outcome (list (list (list Q)) * list (list (list Q))) :=
  let H := height sdf in
  let W := width sdf in
  let sdf_padded := pad_replicate sdf in
  grad_x_map <- conv2d sdf_padded sobel_x ;;
  grad_y_map <- conv2d sdf_padded sobel_y ;;
  let grid_coords := metric_to_grid self trajs H W in
  let grid_coords := map (fun pts => [pts]) grid_coords in
  h_val <- grid_sample sdf grid_coords ;;
  let h_val := view_B_N_1 h_val in
  grad_x_sampled <- grid_sample grad_x_map grid_coords ;;
  grad_y_sampled <- grid_sample grad_y_map grid_coords ;;
  let grad_metric_x := map (map (map (fun v => v / pixel_size self))) (view_B_N_1 grad_y_sampled) in
  let grad_metric_y := map (map (map (fun v => v / pixel_size self))) (view_B_N_1 grad_x_sampled) in
  let h_grad := map2 (map2 (@app Q)) grad_metric_x grad_metric_y in
  Returns (h_val, h_grad).

(** ** A reference distance transform *)

(** Modelled from the spec: kornia's [distance_transform] is not part of the
    sources.  Section 4.1 of the specification, like the comment in
    [compute_sdf], describes a transform that gives, at every cell, the
    distance in grid-cell units to the nearest zero-valued cell of the
    mask, and a large sentinel distance when the mask has no zero-valued
    cell.  The model searches all zero-valued cells (brute force), measures
    the city-block distance, and takes [H + W] as the sentinel.  It is one
    shape-preserving transform among others: only its shape is proved
    below, and it stands for the library only as a concrete input of the
    properties that hold for every transform.  The library itself returns
    zero at every cell of a mask whose cells are all equal. *)
Definition zero_cells (m : grid) : list (nat * nat) :=
  flat_map (fun i =>
    map (pair i)
        (filter (fun j => Qeq_bool (grid_cell m i j) 0) (seq 0 (length (nth i m [])))))
    (seq 0 (length m)).

(** City-block distance between two cells, in cells. *)
Definition city_block (p q : nat * nat) : Q :=
  inject_Z (Z.abs (Z.of_nat (fst p) - Z.of_nat (fst q))
            + Z.abs (Z.of_nat (snd p) - Z.of_nat (snd q))).

(** The distance reported when the mask has no zero-valued cell. *)
Definition sentinel (m : grid) : Q :=
  inject_Z (Z.of_nat (length m) + Z.of_nat (length (hd [] m))).

(** Distance from [p] to the nearest of the zero-valued cells [zs]. *)
Definition nearest_zero (m : grid) (zs : list (nat * nat)) (p : nat * nat) : Q :=
  match zs with
  | [] => sentinel m
  | z :: zs' => fold_right (fun z' d => Qmin (city_block p z') d) (city_block p z) zs'
  end.

(** Modelled from the spec: the transform of one mask, cell by cell. *)
Definition distance_transform_grid (m : grid) : grid :=
  let zs := zero_cells m in
  map (fun i => map (fun j => nearest_zero m zs (i, j)) (seq 0 (length (nth i m []))))
      (seq 0 (length m)).

(** Modelled from the spec: the transform of a [B, C, H, W] tensor, every
    grid on its own. *)
Definition distance_transform_spec (t : tensor4) : tensor4 :=
  map (map distance_transform_grid) t.

(** A rational stand-in for the logistic function, used to run examples:
    increasing, with values strictly between 0 and 1 and value 1/2 at 0. *)
Definition sigmoid_rational (x : Q) : Q := 1 / 2 + x / (2 * (1 + Qabs x)).

(** ** Reference formulas for the gradient maps *)

(** Index [i] pinned to [0 .. n - 1]. *)
Definition clamp_index (i : Z) (n : nat) : nat :=
  Z.to_nat (Z.max 0 (Z.min i (Z.of_nat n - 1))).

(** The cell [(i, j)] of a grid extended by edge replication. *)
Definition edge_cell (g : grid) (i j : Z) : Q :=
  grid_cell g (clamp_index i (length g)) (clamp_index j (length (hd [] g))).

(** Sobel estimate of the change along the row axis (rows [i + 1] against
    [i - 1]), weights 1, 2, 1 and scale 1/8. *)
Definition row_gradient (g : grid) (i j : nat) : Q :=
  let r := Z.of_nat i in
  let c := Z.of_nat j in
  ((edge_cell g (r + 1) (c - 1) + 2 * edge_cell g (r + 1) c + edge_cell g (r + 1) (c + 1))
   - (edge_cell g (r - 1) (c - 1) + 2 * edge_cell g (r - 1) c + edge_cell g (r - 1) (c + 1)))
  / 8.

(** Sobel estimate of the change along the column axis (columns [j + 1]
    against [j - 1]). *)
Definition col_gradient (g : grid) (i j : nat) : Q :=
  let r := Z.of_nat i in
  let c := Z.of_nat j in
  ((edge_cell g (r - 1) (c + 1) + 2 * edge_cell g r (c + 1) + edge_cell g (r + 1) (c + 1))
   - (edge_cell g (r - 1) (c - 1) + 2 * edge_cell g r (c - 1) + edge_cell g (r + 1) (c - 1)))
  / 8.

(** Smallest and largest cell of a grid. *)
Definition grid_min (g : grid) : Q :=
  match concat g with
  | [] => 0
  | v :: vs => fold_right Qmin v vs
  end.

Definition grid_max (g : grid) : Q :=
  match concat g with
  | [] => 0
  | v :: vs => fold_right Qmax v vs
  end.

(** ** Inputs used by the examples *)

(** [SafetyBarrier()], the configuration of the default arguments. *)
Definition barrier_default : SafetyBarrier :=
  {| pixel_size := 1 # 4; ego_radius := 5 # 2; bev_range := 32 |}.

(** Occupancy logits of shape [1, 2, 2, 3]; channel 1 is the road channel. *)
Definition semantics_small : tensor4 :=
  [[ [[0; 0; 0]; [0; 0; 0]];
     [[2; -1; 3]; [1; 0; -2]] ]].

(** A field of shape [1, 1, 2, 3] and one batch element with two points. *)
Definition sdf_small : tensor4 := [[ [[1; 2; 4]; [3; 5; 9]] ]].
Definition trajs_small : list (list (Q * Q)) := [[(0, 0); (1 # 8, -(1 # 4))]].

(** A 64x64 scene whose road logit is 1 everywhere (fully drivable at
    threshold 1/2) and the ego origin as the only trajectory point. *)
Definition semantics_drivable64 : tensor4 :=
  [[ repeat (repeat 0 64%nat) 64%nat; repeat (repeat 1 64%nat) 64%nat ]].
Definition trajs_origin : list (list (Q * Q)) := [[(0, 0)]].

(** A point 100 m ahead and 50 m to the side: far outside a 2x3 grid. *)
Definition trajs_outside : list (list (Q * Q)) := [[(100, -50)]].

(** Two scenes of shape [1, 2, 2, 2]: road logits all positive, and all
    negative. *)
Definition semantics_all_road : tensor4 :=
  [[ [[0; 0]; [0; 0]]; [[1; 2]; [3; 1]] ]].
Definition semantics_no_road : tensor4 :=
  [[ [[0; 0]; [0; 0]]; [[-1; -2]; [-3; -1]] ]].

(** A flat field of shape [1, 1, 2, 3]. *)
Definition sdf_flat : tensor4 := [[ [[7; 7; 7]; [7; 7; 7]] ]].

(** The metric centre of cell (1, 2) of a 2x3 grid with 1/4 m cells:
    0.25 m ahead, 0.125 m to the side. *)
Definition trajs_centre : list (list (Q * Q)) := [[(1 # 4, 1 # 8)]].

(** The point of the 2x3 grid's extent nearest to [trajs_outside]: last
    row (0.25 m ahead), first column (0.375 m to the right). *)
Definition trajs_edge : list (list (Q * Q)) := [[(1 # 4, - (3 # 8))]].

(** A 3x3 field that rises by 2 per row and by 1 per column, and the
    metric centre of its cell (0, 1): on the ego row, 0.125 m to the right. *)
Definition sdf_affine : tensor4 := [[ [[0; 1; 2]; [2; 3; 4]; [4; 5; 6]] ]].
Definition trajs_first_row : list (list (Q * Q)) := [[(0, - (1 # 8))]].

(** [semantics_small] with other logits in channel 0 and a third channel;
    the road channel is the same. *)
Definition semantics_small_other : tensor4 :=
  [[ [[5; -4; 1]; [0; 2; -7]];
     [[2; -1; 3]; [1; 0; -2]];
     [[9; 9; 9]; [9; 9; 9]] ]].

(** * Properties *)

(** ** Lists and shapes *)

Section ListFacts.
Context {A B C : Type}.

Lemma nth_map_in (f : A -> B) (l : list A) (i : nat) (d : A) (d' : B) :
  (i < length l)%nat -> nth i (map f l) d' = f (nth i l d).
Proof.
  intros Hi. rewrite (nth_indep _ d' (f d)) by (rewrite length_map; exact Hi).
  apply map_nth.
Qed.

Lemma length_map2 (f : A -> B -> C) (xs : list A) (ys : list B) :
  length (map2 f xs ys) = Nat.min (length xs) (length ys).
Proof.
  revert ys. induction xs as [|x xs IH]; intros [|y ys]; simpl; auto.
Qed.

Lemma nth_map2 (f : A -> B -> C) (xs : list A) (ys : list B) (i : nat)
      (dx : A) (dy : B) (d : C) :
  (i < length xs)%nat -> (i < length ys)%nat ->
  nth i (map2 f xs ys) d = f (nth i xs dx) (nth i ys dy).
Proof.
  revert ys i. induction xs as [|x xs IH]; intros [|y ys] [|i]; simpl; intros; try lia; auto.
  apply IH; lia.
Qed.

Lemma forallb_nth (p : A -> bool) (l : list A) (d : A) :
  forallb p l = true <-> (forall i, (i < length l)%nat -> p (nth i l d) = true).
Proof.
  induction l as [|x l IH]; simpl.
  - split; [intros _ i Hi; lia | reflexivity].
  - rewrite andb_true_iff, IH. split.
    + intros [Hx Hl] [|i] Hi; [exact Hx | apply Hl; lia].
    + intros Hall. split; [apply (Hall 0%nat); lia | intros i Hi; apply (Hall (S i)); lia].
Qed.

End ListFacts.

Lemma nth_seq_map {A : Type} (f : nat -> A) (n i : nat) (d : A) :
  (i < n)%nat -> nth i (map f (seq 0 n)) d = f i.
Proof.
  intros Hi. rewrite (nth_map_in f (seq 0 n) i 0%nat d) by (rewrite length_seq; exact Hi).
  rewrite seq_nth by exact Hi. reflexivity.
Qed.

Lemma shape2_iff (g : grid) (H W : nat) :
  shape2 g H W = true <->
  length g = H /\ forall i, (i < H)%nat -> length (nth i g []) = W.
Proof.
  unfold shape2. rewrite andb_true_iff, Nat.eqb_eq, (forallb_nth _ g []).
  split; intros [HH Hr]; split; auto; intros i Hi.
  - apply Nat.eqb_eq, Hr. lia.
  - apply Nat.eqb_eq, Hr. lia.
Qed.

Lemma shape3_iff (cs : list grid) (C H W : nat) :
  shape3 cs C H W = true <->
  length cs = C /\ forall c, (c < C)%nat -> shape2 (nth c cs []) H W = true.
Proof.
  unfold shape3. rewrite andb_true_iff, Nat.eqb_eq, (forallb_nth _ cs []).
  split; intros [HC Hg]; split; auto; intros c Hc; apply Hg; lia.
Qed.

Lemma shape4_iff (t : tensor4) (B C H W : nat) :
  shape4 t B C H W = true <->
  length t = B /\ forall b, (b < B)%nat -> shape3 (nth b t []) C H W = true.
Proof.
  unfold shape4. rewrite andb_true_iff, Nat.eqb_eq, (forallb_nth _ t []).
  split; intros [HB Hc]; split; auto; intros b Hb; apply Hc; lia.
Qed.

(** What a shape says about one cell's coordinates. *)
Lemma shape4_lengths (t : tensor4) (B C H W b c i : nat) :
  shape4 t B C H W = true -> (b < B)%nat -> (c < C)%nat -> (i < H)%nat ->
  length t = B /\ length (nth b t []) = C /\
  length (nth c (nth b t []) []) = H /\
  length (nth i (nth c (nth b t []) []) []) = W.
Proof.
  intros Hs Hb Hc Hi.
  apply shape4_iff in Hs. destruct Hs as [HB Hs].
  specialize (Hs b Hb). apply shape3_iff in Hs. destruct Hs as [HC Hs].
  specialize (Hs c Hc). apply shape2_iff in Hs. destruct Hs as [HH Hs].
  auto.
Qed.

Lemma shape2_map_grid (f : Q -> Q) (g : grid) (H W : nat) :
  shape2 (map_grid f g) H W = shape2 g H W.
Proof.
  unfold shape2, map_grid. rewrite length_map. f_equal.
  induction g as [|r g IH]; simpl; [reflexivity|].
  rewrite length_map, IH. reflexivity.
Qed.

Lemma shape3_map (f : grid -> grid) (cs : list grid) (C H W : nat) :
  (forall g, shape2 (f g) H W = shape2 g H W) ->
  shape3 (map f cs) C H W = shape3 cs C H W.
Proof.
  intros Hf. unfold shape3. rewrite length_map. f_equal.
  induction cs as [|g cs IH]; simpl; [reflexivity|].
  rewrite Hf, IH. reflexivity.
Qed.

Lemma shape4_map4 (f : Q -> Q) (t : tensor4) (B C H W : nat) :
  shape4 (map4 f t) B C H W = shape4 t B C H W.
Proof.
  unfold shape4, map4. rewrite length_map. f_equal.
  induction t as [|cs t IH]; simpl; [reflexivity|].
  rewrite IH, (shape3_map (map_grid f)); [reflexivity|].
  intros g. apply shape2_map_grid.
Qed.

Lemma grid_cell_map_grid (f : Q -> Q) (g : grid) (i j : nat) :
  (i < length g)%nat -> (j < length (nth i g []))%nat ->
  grid_cell (map_grid f g) i j = f (grid_cell g i j).
Proof.
  intros Hi Hj. unfold grid_cell, map_grid.
  rewrite (nth_map_in (map f) g i [] []) by lia.
  apply nth_map_in. lia.
Qed.

Lemma cell_map4 (f : Q -> Q) (t : tensor4) (B C H W b c i j : nat) :
  shape4 t B C H W = true ->
  (b < B)%nat -> (c < C)%nat -> (i < H)%nat -> (j < W)%nat ->
  cell (map4 f t) b c i j = f (cell t b c i j).
Proof.
  intros Hs Hb Hc Hi Hj.
  destruct (shape4_lengths t B C H W b c i Hs Hb Hc Hi) as (HB & HC & HH & HW).
  unfold cell, map4.
  rewrite (nth_map_in (map (map_grid f)) t b [] []) by lia.
  rewrite (nth_map_in (map_grid f) (nth b t []) c [] []) by lia.
  apply grid_cell_map_grid; lia.
Qed.

Lemma shape4_zip4 (f : Q -> Q -> Q) (t u : tensor4) (B C H W : nat) :
  shape4 t B C H W = true -> shape4 u B C H W = true ->
  shape4 (zip4 f t u) B C H W = true.
Proof.
  intros Ht Hu.
  apply shape4_iff. apply shape4_iff in Ht, Hu.
  destruct Ht as [HtB Ht], Hu as [HuB Hu]. unfold zip4.
  split; [rewrite length_map2; lia|]. intros b Hb.
  rewrite (nth_map2 (map2 (zip_grid f)) t u b [] [] []) by lia.
  specialize (Ht b Hb). specialize (Hu b Hb).
  apply shape3_iff. apply shape3_iff in Ht, Hu.
  destruct Ht as [HtC Ht], Hu as [HuC Hu].
  split; [rewrite length_map2; lia|]. intros c Hc.
  rewrite (nth_map2 (zip_grid f) _ _ c [] [] []) by lia.
  specialize (Ht c Hc). specialize (Hu c Hc).
  apply shape2_iff. apply shape2_iff in Ht, Hu.
  destruct Ht as [HtH Ht], Hu as [HuH Hu]. unfold zip_grid.
  split; [rewrite length_map2; lia|]. intros i Hi.
  rewrite (nth_map2 (map2 f) _ _ i [] [] []) by lia.
  rewrite length_map2, (Ht i Hi), (Hu i Hi). lia.
Qed.

Lemma cell_zip4 (f : Q -> Q -> Q) (t u : tensor4) (B C H W b c i j : nat) :
  shape4 t B C H W = true -> shape4 u B C H W = true ->
  (b < B)%nat -> (c < C)%nat -> (i < H)%nat -> (j < W)%nat ->
  cell (zip4 f t u) b c i j = f (cell t b c i j) (cell u b c i j).
Proof.
  intros Ht Hu Hb Hc Hi Hj.
  destruct (shape4_lengths t B C H W b c i Ht Hb Hc Hi) as (HB & HC & HH & HW).
  destruct (shape4_lengths u B C H W b c i Hu Hb Hc Hi) as (HB' & HC' & HH' & HW').
  unfold cell, grid_cell, zip4.
  rewrite (nth_map2 (map2 (zip_grid f)) t u b [] [] []) by lia.
  rewrite (nth_map2 (zip_grid f) _ _ c [] [] []) by lia.
  unfold zip_grid.
  rewrite (nth_map2 (map2 f) _ _ i [] [] []) by lia.
  rewrite (nth_map2 f _ _ j 0 0 0) by lia.
  reflexivity.
Qed.

(** The channel slice [1:2] of a tensor with at least two channels. *)
Lemma slice_1_2 {A : Type} (l : list A) (d : A) :
  (2 <= length l)%nat -> slice 1 2 l = [nth 1 l d].
Proof.
  destruct l as [|x [|y l]]; simpl; intros; try lia. reflexivity.
Qed.

Lemma shape4_road_channel (t : tensor4) (B C H W : nat) :
  shape4 t B C H W = true -> (2 <= C)%nat ->
  shape4 (map (slice 1 2) t) B 1 H W = true.
Proof.
  intros Ht HC. apply shape4_iff. apply shape4_iff in Ht. destruct Ht as [HB Ht].
  split; [rewrite length_map; exact HB|]. intros b Hb.
  rewrite (nth_map_in (slice 1 2) t b [] []) by lia.
  specialize (Ht b Hb). apply shape3_iff in Ht. destruct Ht as [HCl Ht].
  rewrite (slice_1_2 (nth b t []) []) by lia.
  apply shape3_iff. split; [reflexivity|].
  intros c Hc. assert (c = 0%nat) by lia. subst c. simpl. apply Ht. lia.
Qed.

Lemma cell_road_channel (t : tensor4) (B C H W b i j : nat) :
  shape4 t B C H W = true -> (2 <= C)%nat -> (b < B)%nat ->
  cell (map (slice 1 2) t) b 0 i j = cell t b 1 i j.
Proof.
  intros Ht HC Hb. apply shape4_iff in Ht. destruct Ht as [HB Ht].
  specialize (Ht b Hb). apply shape3_iff in Ht. destruct Ht as [HCl _].
  unfold cell. rewrite (nth_map_in (slice 1 2) t b [] []) by lia.
  rewrite (slice_1_2 (nth b t []) []) by lia. reflexivity.
Qed.

(** ** compute_sdf *)

(** Side conditions on shapes and indices. *)
Ltac in_range := first [assumption | lia].

Section ComputeSdfFacts.
Variable sigmoid : Q -> Q.
Variable distance_transform : tensor4 -> tensor4.

Lemma shape4_road_prob (semantics : tensor4) (B C H W : nat) :
  shape4 semantics B C H W = true -> (2 <= C)%nat ->
  shape4 (road_prob sigmoid semantics) B 1 H W = true.
Proof.
  intros Hs HC. unfold road_prob. rewrite shape4_map4.
  apply (shape4_road_channel semantics B C H W Hs HC).
Qed.

Lemma shape4_drivable_mask (semantics : tensor4) (threshold : Q) (B C H W : nat) :
  shape4 semantics B C H W = true -> (2 <= C)%nat ->
  shape4 (drivable_mask sigmoid semantics threshold) B 1 H W = true.
Proof.
  intros Hs HC. unfold drivable_mask. rewrite shape4_map4.
  apply (shape4_road_prob semantics B C H W Hs HC).
Qed.

Lemma shape4_non_drivable_mask (semantics : tensor4) (threshold : Q) (B C H W : nat) :
  shape4 semantics B C H W = true -> (2 <= C)%nat ->
  shape4 (non_drivable_mask sigmoid semantics threshold) B 1 H W = true.
Proof.
  intros Hs HC. unfold non_drivable_mask. rewrite shape4_map4.
  apply (shape4_drivable_mask semantics threshold B C H W Hs HC).
Qed.

Lemma cell_drivable_mask (semantics : tensor4) (threshold : Q) (B C H W b i j : nat) :
  shape4 semantics B C H W = true -> (2 <= C)%nat ->
  (b < B)%nat -> (i < H)%nat -> (j < W)%nat ->
  cell (drivable_mask sigmoid semantics threshold) b 0 i j
  = gt_float threshold (sigmoid (cell semantics b 1 i j)).
Proof.
  intros Hs HC Hb Hi Hj. unfold drivable_mask.
  rewrite (cell_map4 _ _ B 1 H W);
    [| apply (shape4_road_prob semantics B C H W Hs HC) | in_range ..].
  unfold road_prob.
  rewrite (cell_map4 _ _ B 1 H W);
    [| apply (shape4_road_channel semantics B C H W Hs HC) | in_range ..].
  rewrite (cell_road_channel semantics B C H W) by assumption.
  reflexivity.
Qed.

Lemma cell_non_drivable_mask (semantics : tensor4) (threshold : Q) (B C H W b i j : nat) :
  shape4 semantics B C H W = true -> (2 <= C)%nat ->
  (b < B)%nat -> (i < H)%nat -> (j < W)%nat ->
  cell (non_drivable_mask sigmoid semantics threshold) b 0 i j
  = 1 - gt_float threshold (sigmoid (cell semantics b 1 i j)).
Proof.
  intros Hs HC Hb Hi Hj. unfold non_drivable_mask.
  rewrite (cell_map4 _ _ B 1 H W);
    [| apply (shape4_drivable_mask semantics threshold B C H W Hs HC) | in_range ..].
  rewrite (cell_drivable_mask semantics threshold B C H W) by assumption.
  reflexivity.
Qed.

(** The field of line 47, cell by cell, once both transforms have the
    mask's shape. *)
Lemma cell_raw_sdf (semantics : tensor4) (threshold : Q) (B C H W b c i j : nat) :
  shape4 (distance_transform (drivable_mask sigmoid semantics threshold)) B C H W = true ->
  shape4 (distance_transform (non_drivable_mask sigmoid semantics threshold)) B C H W = true ->
  (b < B)%nat -> (c < C)%nat -> (i < H)%nat -> (j < W)%nat ->
  cell (raw_sdf sigmoid distance_transform semantics threshold) b c i j
  = cell (distance_transform (drivable_mask sigmoid semantics threshold)) b c i j
    - cell (distance_transform (non_drivable_mask sigmoid semantics threshold)) b c i j.
Proof.
  intros Hd Hn Hb Hc Hi Hj. unfold raw_sdf.
  apply (cell_zip4 Qminus _ _ B C H W); assumption.
Qed.

Lemma shape4_raw_sdf (semantics : tensor4) (threshold : Q) (B C H W : nat) :
  shape4 (distance_transform (drivable_mask sigmoid semantics threshold)) B C H W = true ->
  shape4 (distance_transform (non_drivable_mask sigmoid semantics threshold)) B C H W = true ->
  shape4 (raw_sdf sigmoid distance_transform semantics threshold) B C H W = true.
Proof.
  intros Hd Hn. unfold raw_sdf. apply shape4_zip4; assumption.
Qed.

(** C1: for an occupancy input of shape [B, C, H, W] with at least two
    channels, [compute_sdf] returns a field of shape [B, 1, H, W] whose
    every cell is (distance transform of the drivable mask minus distance
    transform of the non-drivable mask) times [pixel_size] minus
    [ego_radius]; the drivable mask is 1 exactly where the sigmoid of the
    channel-1 logit is strictly above the threshold, and the non-drivable
    mask is its complement.  The distance transform is any function that
    returns a tensor of the mask's shape. *)
Theorem compute_sdf_field (self : SafetyBarrier) (semantics : tensor4) (threshold : Q)
        (B C H W : nat) :
  shape4 semantics B C H W = true ->
  (2 <= C)%nat ->
  0 < threshold < 1 ->
  shape4 (distance_transform (drivable_mask sigmoid semantics threshold)) B 1 H W = true ->
  shape4 (distance_transform (non_drivable_mask sigmoid semantics threshold)) B 1 H W = true ->
  exists sdf,
    compute_sdf sigmoid distance_transform self semantics threshold = Returns sdf /\
    shape4 sdf B 1 H W = true /\
    shape4 (drivable_mask sigmoid semantics threshold) B 1 H W = true /\
    shape4 (non_drivable_mask sigmoid semantics threshold) B 1 H W = true /\
    forall b i j, (b < B)%nat -> (i < H)%nat -> (j < W)%nat ->
      let p := sigmoid (cell semantics b 1 i j) in
      let drivable := cell (drivable_mask sigmoid semantics threshold) b 0 i j in
      let non_drivable := cell (non_drivable_mask sigmoid semantics threshold) b 0 i j in
      (threshold < p -> drivable = 1 /\ non_drivable = 0) /\
      (p <= threshold -> drivable = 0 /\ non_drivable = 1) /\
      cell sdf b 0 i j
      = (cell (distance_transform (drivable_mask sigmoid semantics threshold)) b 0 i j
         - cell (distance_transform (non_drivable_mask sigmoid semantics threshold)) b 0 i j)
        * pixel_size self - ego_radius self.
Proof.
  intros Hs HC _ Hd Hn. eexists. split; [reflexivity|].
  pose proof (shape4_raw_sdf semantics threshold B 1 H W Hd Hn) as Hraw.
  split; [rewrite shape4_map4; exact Hraw|].
  split; [apply (shape4_drivable_mask semantics threshold B C H W Hs HC)|].
  split; [apply (shape4_non_drivable_mask semantics threshold B C H W Hs HC)|].
  intros b i j Hb Hi Hj. cbv zeta.
  rewrite (cell_drivable_mask semantics threshold B C H W) by assumption.
  rewrite (cell_non_drivable_mask semantics threshold B C H W) by assumption.
  unfold gt_float.
  split; [|split].
  - intros Hlt. destruct (Qlt_le_dec threshold (sigmoid (cell semantics b 1 i j))) as [_|Hle].
    + split; reflexivity.
    + exfalso. apply (Qlt_irrefl threshold). eapply Qlt_le_trans; eassumption.
  - intros Hle. destruct (Qlt_le_dec threshold (sigmoid (cell semantics b 1 i j))) as [Hlt|_].
    + exfalso. apply (Qlt_irrefl threshold). eapply Qlt_le_trans; eassumption.
    + split; reflexivity.
  - rewrite (cell_map4 _ _ B 1 H W) by in_range.
    rewrite (cell_raw_sdf semantics threshold B 1 H W) by in_range.
    reflexivity.
Qed.

(** C7: with the occupancy input and the threshold fixed, running
    [compute_sdf] with [ego_radius + delta] in place of [ego_radius]
    lowers every cell of the field by exactly [delta].  The masks are
    functions of the input and the threshold alone, so they are the same
    in both runs. *)
Theorem margin_shift (self : SafetyBarrier) (semantics : tensor4) (threshold delta : Q)
        (B C H W : nat) :
  shape4 semantics B C H W = true ->
  (2 <= C)%nat ->
  shape4 (distance_transform (drivable_mask sigmoid semantics threshold)) B 1 H W = true ->
  shape4 (distance_transform (non_drivable_mask sigmoid semantics threshold)) B 1 H W = true ->
  0 <= delta ->
  exists sdf sdf',
    compute_sdf sigmoid distance_transform self semantics threshold = Returns sdf /\
    compute_sdf sigmoid distance_transform
      {| pixel_size := pixel_size self;
         ego_radius := ego_radius self + delta;
         bev_range := bev_range self |} semantics threshold = Returns sdf' /\
    forall b i j, (b < B)%nat -> (i < H)%nat -> (j < W)%nat ->
      cell sdf' b 0 i j == cell sdf b 0 i j - delta.
Proof.
  intros Hs HC Hd Hn _. do 2 eexists. split; [reflexivity|]. split; [reflexivity|].
  intros b i j Hb Hi Hj.
  pose proof (shape4_raw_sdf semantics threshold B 1 H W Hd Hn) as Hraw.
  rewrite !(cell_map4 _ _ B 1 H W) by in_range.
  simpl. ring.
Qed.

(** C9: two configurations that agree on [pixel_size] and [ego_radius]
    (they may differ in [bev_range]) give the same result of
    [compute_sdf], of [metric_to_grid] and of [get_gradients] on every
    input. *)
Theorem bev_range_unused (self other : SafetyBarrier) (semantics sdf : tensor4)
        (threshold : Q) (trajs : list (list (Q * Q))) (H W : nat) :
  pixel_size self = pixel_size other ->
  ego_radius self = ego_radius other ->
  compute_sdf sigmoid distance_transform self semantics threshold
  = compute_sdf sigmoid distance_transform other semantics threshold /\
  metric_to_grid self trajs H W = metric_to_grid other trajs H W /\
  get_gradients self sdf trajs = get_gradients other sdf trajs.
Proof.
  intros Hp Hr.
  unfold compute_sdf, get_gradients, metric_to_grid, metric_to_grid_point.
  rewrite Hp, Hr. repeat split.
Qed.

End ComputeSdfFacts.

Lemma compute_sdf_field_witness :
  exists sdf,
    compute_sdf sigmoid_rational distance_transform_spec barrier_default semantics_small (1 # 2)
    = Returns sdf /\
    shape4 sdf 1 1 2 3 = true /\
    shape4 (drivable_mask sigmoid_rational semantics_small (1 # 2)) 1 1 2 3 = true /\
    shape4 (non_drivable_mask sigmoid_rational semantics_small (1 # 2)) 1 1 2 3 = true /\
    forall b i j, (b < 1)%nat -> (i < 2)%nat -> (j < 3)%nat ->
      let p := sigmoid_rational (cell semantics_small b 1 i j) in
      let drivable := cell (drivable_mask sigmoid_rational semantics_small (1 # 2)) b 0 i j in
      let non_drivable :=
        cell (non_drivable_mask sigmoid_rational semantics_small (1 # 2)) b 0 i j in
      ((1 # 2) < p -> drivable = 1 /\ non_drivable = 0) /\
      (p <= 1 # 2 -> drivable = 0 /\ non_drivable = 1) /\
      cell sdf b 0 i j
      = (cell (distance_transform_spec
                 (drivable_mask sigmoid_rational semantics_small (1 # 2))) b 0 i j
         - cell (distance_transform_spec
                   (non_drivable_mask sigmoid_rational semantics_small (1 # 2))) b 0 i j)
        * pixel_size barrier_default - ego_radius barrier_default.
Proof.
  apply (compute_sdf_field sigmoid_rational distance_transform_spec barrier_default
           semantics_small (1 # 2) 1 2 2 3).
  - reflexivity.
  - lia.
  - split; reflexivity.
  - reflexivity.
  - reflexivity.
Defined.

Lemma margin_shift_witness :
  exists sdf sdf',
    compute_sdf sigmoid_rational distance_transform_spec barrier_default semantics_small (1 # 2)
    = Returns sdf /\
    compute_sdf sigmoid_rational distance_transform_spec
      {| pixel_size := pixel_size barrier_default;
         ego_radius := ego_radius barrier_default + (3 # 4);
         bev_range := bev_range barrier_default |} semantics_small (1 # 2) = Returns sdf' /\
    forall b i j, (b < 1)%nat -> (i < 2)%nat -> (j < 3)%nat ->
      cell sdf' b 0 i j == cell sdf b 0 i j - (3 # 4).
Proof.
  apply (margin_shift sigmoid_rational distance_transform_spec barrier_default
           semantics_small (1 # 2) (3 # 4) 1 2 2 3).
  - reflexivity.
  - lia.
  - reflexivity.
  - reflexivity.
  - discriminate.
Defined.

Lemma bev_range_unused_witness :
  compute_sdf sigmoid_rational distance_transform_spec barrier_default semantics_small (1 # 2)
  = compute_sdf sigmoid_rational distance_transform_spec
      {| pixel_size := 1 # 4; ego_radius := 5 # 2; bev_range := 50 |} semantics_small (1 # 2) /\
  metric_to_grid barrier_default trajs_small 2 3
  = metric_to_grid {| pixel_size := 1 # 4; ego_radius := 5 # 2; bev_range := 50 |}
      trajs_small 2 3 /\
  get_gradients barrier_default sdf_small trajs_small
  = get_gradients {| pixel_size := 1 # 4; ego_radius := 5 # 2; bev_range := 50 |}
      sdf_small trajs_small.
Proof.
  apply (bev_range_unused sigmoid_rational distance_transform_spec barrier_default
           {| pixel_size := 1 # 4; ego_radius := 5 # 2; bev_range := 50 |}
           semantics_small sdf_small (1 # 2) trajs_small 2 3).
  - reflexivity.
  - reflexivity.
Defined.

(** ** Error behaviour *)

(** The claim of C6 fails on the code: a configuration with a negative
    [pixel_size], a negative [ego_radius] and a threshold of 2 is accepted
    by the constructor, and [compute_sdf] returns a field for it. *)
Lemma invalid_configuration_is_accepted :
  - (1 # 4) <= 0 /\ -1 < 0 /\ ~ (0 < 2 < 1) /\
  exists self sdf,
    __init__ (- (1 # 4)) (-1) 32 = Returns self /\
    __init__ (- (1 # 4)) (-1) 32 <> Raises "InvalidConfiguration" /\
    compute_sdf sigmoid_rational distance_transform_spec self semantics_small 2 = Returns sdf /\
    compute_sdf sigmoid_rational distance_transform_spec self semantics_small 2
    <> Raises "InvalidConfiguration".
Proof.
  split; [discriminate|]. split; [reflexivity|].
  split; [intros [_ H]; discriminate H|].
  do 2 eexists. split; [reflexivity|]. split; [discriminate|].
  split; [reflexivity|discriminate].
Qed.

(** C6 (as amended): no configuration is rejected.  The constructor stores
    [pixel_size], [ego_radius] and [bev_range] as given, whatever their
    sign, and for an occupancy input of shape [B, C, H, W] with at least
    two channels [compute_sdf] returns the [B, 1, H, W] field of its
    formula for every configuration and every threshold; neither raises
    [InvalidConfiguration]. *)
Theorem configuration_is_not_validated (sigmoid : Q -> Q)
        (distance_transform : tensor4 -> tensor4)
        (ps r range threshold : Q) (semantics : tensor4) (B C H W : nat) :
  shape4 semantics B C H W = true -> (2 <= C)%nat ->
  shape4 (distance_transform (drivable_mask sigmoid semantics threshold)) B 1 H W = true ->
  shape4 (distance_transform (non_drivable_mask sigmoid semantics threshold)) B 1 H W = true ->
  exists self sdf,
    __init__ ps r range = Returns self /\
    pixel_size self = ps /\ ego_radius self = r /\ bev_range self = range /\
    compute_sdf sigmoid distance_transform self semantics threshold = Returns sdf /\
    sdf = map4 (fun v => v * ps - r)
            (raw_sdf sigmoid distance_transform semantics threshold) /\
    shape4 sdf B 1 H W = true.
Proof.
  intros Hs HC Hd Hn. do 2 eexists. split; [reflexivity|].
  split; [reflexivity|]. split; [reflexivity|]. split; [reflexivity|].
  split; [reflexivity|]. split; [reflexivity|].
  rewrite shape4_map4. apply shape4_raw_sdf; assumption.
Qed.

Lemma configuration_is_not_validated_witness :
  exists self sdf,
    __init__ (- (1 # 4)) (-1) 32 = Returns self /\
    pixel_size self = - (1 # 4) /\ ego_radius self = -1 /\ bev_range self = 32 /\
    compute_sdf sigmoid_rational distance_transform_spec self semantics_small 2 = Returns sdf /\
    sdf = map4 (fun v => v * - (1 # 4) - -1)
            (raw_sdf sigmoid_rational distance_transform_spec semantics_small 2) /\
    shape4 sdf 1 1 2 3 = true.
Proof.
  apply (configuration_is_not_validated sigmoid_rational distance_transform_spec
           (- (1 # 4)) (-1) 32 2 semantics_small 1 2 2 3).
  - reflexivity.
  - lia.
  - reflexivity.
  - reflexivity.
Defined.

Lemma conv2d_single_channel (input : tensor4) (weight : grid) :
  forallb (fun chans => (length chans =? 1)%nat) input = true ->
  conv2d input weight = Returns (map (map (fun img => correlate3 img weight)) input).
Proof.
  intros Hc. unfold conv2d. rewrite Hc. reflexivity.
Qed.

Lemma grid_sample_batch_mismatch (input : tensor4) (grid : list (list (list (Q * Q)))) :
  length input <> length grid -> grid_sample input grid = Raises "RuntimeError".
Proof.
  intros Hne. unfold grid_sample.
  destruct (Nat.eqb_spec (length input) (length grid)); [contradiction | reflexivity].
Qed.

Lemma length_grid_coords (self : SafetyBarrier) (trajs : list (list (Q * Q))) (H W : nat) :
  length (map (fun pts => [pts]) (metric_to_grid self trajs H W)) = length trajs.
Proof.
  unfold metric_to_grid. rewrite !length_map. reflexivity.
Qed.

(** The claim of C5 fails on the code: with one batch element in [sdf] and
    two in [trajs] the call raises [RuntimeError], not [ShapeMismatch]. *)
Lemma batch_mismatch_is_not_shape_mismatch :
  length sdf_small <> length (trajs_small ++ trajs_small) /\
  get_gradients barrier_default sdf_small (trajs_small ++ trajs_small)
  = Raises "RuntimeError" /\
  get_gradients barrier_default sdf_small (trajs_small ++ trajs_small)
  <> Raises "ShapeMismatch".
Proof.
  split; [discriminate|]. split; [vm_compute; reflexivity|].
  vm_compute. discriminate.
Qed.


(** ** metric_to_grid *)

Lemma clamp_bounds (v lo hi : Q) : lo <= hi -> lo <= clamp v lo hi <= hi.
Proof.
  intros Hlh. unfold clamp. split.
  - apply Q.min_glb; [apply Q.le_max_r | exact Hlh].
  - apply Q.le_min_r.
Qed.

Lemma clamp_below (v lo hi : Q) : lo <= hi -> v < lo -> clamp v lo hi = lo.
Proof.
  intros Hlh Hv. unfold clamp, Qmax, Qmin, GenericMinMax.gmax, GenericMinMax.gmin.
  rewrite (proj1 (Qlt_alt v lo) Hv).
  destruct (lo ?= hi) eqn:Hc; try reflexivity.
  apply Qgt_alt in Hc. exfalso. apply (Qlt_irrefl hi). eapply Qlt_le_trans; eassumption.
Qed.

Lemma clamp_above (v lo hi : Q) : lo <= hi -> hi < v -> clamp v lo hi = hi.
Proof.
  intros Hlh Hv. unfold clamp, Qmax, Qmin, GenericMinMax.gmax, GenericMinMax.gmin.
  assert (Hc : (v ?= lo) = Gt).
  { apply Qgt_alt. eapply Qle_lt_trans; eassumption. }
  rewrite Hc. rewrite (proj1 (Qgt_alt v hi) Hv). reflexivity.
Qed.

Lemma clamp_inside (v lo hi : Q) : lo <= v <= hi -> clamp v lo hi = v.
Proof.
  intros [Hl Hh]. unfold clamp, Qmax, Qmin, GenericMinMax.gmax, GenericMinMax.gmin.
  destruct (v ?= lo) eqn:Hc.
  - destruct (v ?= hi) eqn:Hc'; try reflexivity.
    apply Qgt_alt in Hc'. exfalso. apply (Qlt_irrefl v). eapply Qle_lt_trans; eassumption.
  - apply Qlt_alt in Hc. exfalso. apply (Qlt_irrefl v). eapply Qlt_le_trans; eassumption.
  - destruct (v ?= hi) eqn:Hc'; try reflexivity.
    apply Qgt_alt in Hc'. exfalso. apply (Qlt_irrefl v). eapply Qle_lt_trans; eassumption.
Qed.

Lemma nth_metric_to_grid (self : SafetyBarrier) (trajs : list (list (Q * Q)))
      (H W b n : nat) :
  (b < length trajs)%nat -> (n < length (nth b trajs []))%nat ->
  nth n (nth b (metric_to_grid self trajs H W) []) (0, 0)
  = metric_to_grid_point self H W (nth n (nth b trajs []) (0, 0)).
Proof.
  intros Hb Hn. unfold metric_to_grid.
  rewrite (nth_map_in (map (metric_to_grid_point self H W)) trajs b [] []) by exact Hb.
  apply nth_map_in. exact Hn.
Qed.

(** C2: for [pixel_size <> 0] and a grid of size [H x W] with [H, W >= 2]
    (no division is by zero), and for the trajectory point
    [(forward, lateral)] at position [(b, n)], [metric_to_grid] computes
    [row = forward / pixel_size] and [col = lateral / pixel_size + W / 2],
    normalizes each by [(index / (dim - 1)) * 2 - 1], and clamps both to
    [-1, 1]; the column goes to the horizontal (first) and the row to the
    vertical (second) sampling coordinate.  A coordinate beyond an edge is
    pinned to that edge, one inside is unchanged, and every point gets a
    coordinate pair: the result has the shape of the input. *)
Theorem metric_to_grid_formula (self : SafetyBarrier) (trajs : list (list (Q * Q)))
        (H W b n : nat) :
  (2 <= H)%nat -> (2 <= W)%nat -> ~ pixel_size self == 0 ->
  (b < length trajs)%nat -> (n < length (nth b trajs []))%nat ->
  let forward := fst (nth n (nth b trajs []) (0, 0)) in
  let lateral := snd (nth n (nth b trajs []) (0, 0)) in
  let row := forward / pixel_size self in
  let col := lateral / pixel_size self + inject_Z (Z.of_nat W) / 2 in
  let norm_row := (row / inject_Z (Z.of_nat H - 1)) * 2 - 1 in
  let norm_col := (col / inject_Z (Z.of_nat W - 1)) * 2 - 1 in
  let out := nth n (nth b (metric_to_grid self trajs H W) []) (0, 0) in
  length (metric_to_grid self trajs H W) = length trajs /\
  length (nth b (metric_to_grid self trajs H W) []) = length (nth b trajs []) /\
  out = (clamp norm_col (-1) 1, clamp norm_row (-1) 1) /\
  (-1 <= fst out <= 1 /\ -1 <= snd out <= 1) /\
  (norm_col < -1 -> fst out = -1) /\
  (1 < norm_col -> fst out = 1) /\
  (-1 <= norm_col <= 1 -> fst out = norm_col) /\
  (norm_row < -1 -> snd out = -1) /\
  (1 < norm_row -> snd out = 1) /\
  (-1 <= norm_row <= 1 -> snd out = norm_row).
Proof.
  intros _ _ _ Hb Hn. cbv zeta.
  rewrite (nth_metric_to_grid self trajs H W b n Hb Hn).
  assert (H11 : -1 <= 1) by discriminate.
  split; [unfold metric_to_grid; apply length_map|].
  split.
  { unfold metric_to_grid.
    rewrite (nth_map_in (map (metric_to_grid_point self H W)) trajs b [] []) by exact Hb.
    apply length_map. }
  unfold metric_to_grid_point. cbn [fst snd].
  split; [reflexivity|].
  split; [split; apply clamp_bounds; exact H11|].
  repeat split.
  - apply clamp_below; assumption.
  - apply clamp_above; assumption.
  - apply clamp_inside.
  - apply clamp_below; assumption.
  - apply clamp_above; assumption.
  - apply clamp_inside.
Qed.

Lemma metric_to_grid_formula_witness :
  nth 1 (nth 0 (metric_to_grid barrier_default trajs_small 2 3) []) (0, 0)
  = (clamp ((((- (1 # 4)) / (1 # 4) + inject_Z 3 / 2) / inject_Z 2) * 2 - 1) (-1) 1,
     clamp ((((1 # 8) / (1 # 4)) / inject_Z 1) * 2 - 1) (-1) 1).
Proof.
  apply (metric_to_grid_formula barrier_default trajs_small 2 3 0 1).
  - lia.
  - lia.
  - discriminate.
  - simpl. lia.
  - simpl. lia.
Defined.

(** ** Padding and the Sobel windows *)

Lemma last_is_nth {A : Type} (l : list A) (x d : A) :
  l <> [] -> last l x = nth (length l - 1) l d.
Proof.
  induction l as [|a l IH]; intros Hne; [contradiction|].
  destruct l as [|a' l]; [reflexivity|].
  change (last (a :: a' :: l) x) with (last (a' :: l) x).
  rewrite IH by discriminate. simpl. rewrite Nat.sub_0_r. reflexivity.
Qed.

Lemma length_replicate1 {A : Type} (l : list A) :
  l <> [] -> length (replicate1 l) = (length l + 2)%nat.
Proof.
  destruct l as [|x l]; intros Hne; [contradiction|].
  simpl. rewrite length_app. simpl. lia.
Qed.

(** Entry [k] of a list padded by replication is entry [k - 1] of the
    list, pinned to its range. *)
Lemma nth_replicate1 {A : Type} (l : list A) (k : nat) (d : A) :
  l <> [] -> (k <= length l + 1)%nat ->
  nth k (replicate1 l) d = nth (clamp_index (Z.of_nat k - 1) (length l)) l d.
Proof.
  intros Hne Hk. destruct l as [|x l]; [contradiction|].
  unfold replicate1. destruct k as [|k].
  - replace (clamp_index (Z.of_nat 0 - 1) (length (x :: l))) with 0%nat
      by (unfold clamp_index; simpl length; lia).
    reflexivity.
  - change (nth (S k) (x :: (x :: l) ++ [last (x :: l) x]) d)
      with (nth k ((x :: l) ++ [last (x :: l) x]) d).
    destruct (Nat.lt_ge_cases k (length (x :: l))) as [Hlt|Hge].
    + rewrite app_nth1 by exact Hlt.
      f_equal. unfold clamp_index. simpl length in *. lia.
    + assert (k = length (x :: l)) by (simpl length in *; lia). subst k.
      rewrite app_nth2 by lia. rewrite Nat.sub_diag.
      change (nth 0 [last (x :: l) x] d) with (last (x :: l) x).
      rewrite (last_is_nth (x :: l) x d) by discriminate.
      f_equal. unfold clamp_index. simpl length. lia.
Qed.

Lemma clamp_index_lt (i : Z) (n : nat) : (1 <= n)%nat -> (clamp_index i n < n)%nat.
Proof. unfold clamp_index. lia. Qed.

Lemma shape2_hd (g : grid) (H W : nat) :
  shape2 g H W = true -> (1 <= H)%nat -> length (hd [] g) = W.
Proof.
  intros Hs HH. apply shape2_iff in Hs. destruct Hs as [Hl Hr].
  destruct g as [|r g]; simpl in *; [lia|]. apply (Hr 0%nat). lia.
Qed.

Lemma shape2_pad_replicate_grid (g : grid) (H W : nat) :
  shape2 g H W = true -> (1 <= H)%nat -> (1 <= W)%nat ->
  shape2 (pad_replicate_grid g) (H + 2) (W + 2) = true.
Proof.
  intros Hs HH HW. pose proof Hs as Hs'. apply shape2_iff in Hs'. destruct Hs' as [Hl Hr].
  assert (Hm : map replicate1 g <> []) by (destruct g; simpl in *; [lia | discriminate]).
  apply shape2_iff. unfold pad_replicate_grid. split.
  - rewrite length_replicate1 by exact Hm. rewrite length_map. lia.
  - intros i Hi. rewrite (nth_replicate1 _ i []) by (try exact Hm; rewrite length_map; lia).
    rewrite length_map.
    rewrite (nth_map_in replicate1 g _ [] []) by (apply clamp_index_lt; lia).
    assert (Hrow : length (nth (clamp_index (Z.of_nat i - 1) (length g)) g []) = W).
    { apply Hr. rewrite <- Hl. apply clamp_index_lt. lia. }
    rewrite length_replicate1; [lia|].
    intros Hnil. rewrite Hnil in Hrow. simpl in Hrow. lia.
Qed.

(** A cell of the padded grid is the nearest cell of the grid itself. *)
Lemma grid_cell_pad_replicate (g : grid) (H W k l : nat) :
  shape2 g H W = true -> (1 <= H)%nat -> (1 <= W)%nat ->
  (k <= H + 1)%nat -> (l <= W + 1)%nat ->
  grid_cell (pad_replicate_grid g) k l = edge_cell g (Z.of_nat k - 1) (Z.of_nat l - 1).
Proof.
  intros Hs HH HW Hk Hl. pose proof Hs as Hs'. apply shape2_iff in Hs'. destruct Hs' as [Hlen Hr].
  assert (Hm : map replicate1 g <> []) by (destruct g; simpl in *; [lia | discriminate]).
  unfold grid_cell at 1. unfold pad_replicate_grid.
  rewrite (nth_replicate1 _ k []) by (try exact Hm; rewrite length_map; lia).
  rewrite length_map.
  rewrite (nth_map_in replicate1 g _ [] []) by (apply clamp_index_lt; lia).
  assert (Hrow : length (nth (clamp_index (Z.of_nat k - 1) (length g)) g []) = W).
  { apply Hr. rewrite <- Hlen. apply clamp_index_lt. lia. }
  rewrite (nth_replicate1 _ l 0).
  - unfold edge_cell, grid_cell. rewrite Hrow, (shape2_hd g H W Hs HH). reflexivity.
  - intros Hnil. rewrite Hnil in Hrow. simpl in Hrow. lia.
  - lia.
Qed.

Lemma grid_cell_correlate3 (img weight : grid) (i j : nat) :
  (i + 2 < length img)%nat -> (j + 2 < length (hd [] img))%nat ->
  grid_cell (correlate3 img weight) i j = window3 img weight i j.
Proof.
  intros Hi Hj. unfold grid_cell, correlate3.
  rewrite nth_seq_map by lia. rewrite nth_seq_map by lia. reflexivity.
Qed.

Lemma shape2_correlate3 (img weight : grid) (H W : nat) :
  shape2 img (H + 2) (W + 2) = true -> shape2 (correlate3 img weight) H W = true.
Proof.
  intros Hs. pose proof (shape2_hd img (H + 2) (W + 2) Hs ltac:(lia)) as Hw.
  apply shape2_iff in Hs. destruct Hs as [Hl _].
  apply shape2_iff. unfold correlate3. rewrite length_map, length_seq, Hl, Hw.
  split; [lia|]. intros i Hi.
  rewrite nth_seq_map by lia. rewrite length_map, length_seq. lia.
Qed.

(** The window of a padded grid, over the nine neighbours named by
    [edge_cell]. *)
Lemma window3_pad_replicate (g weight : grid) (H W i j : nat) :
  shape2 g H W = true -> (i < H)%nat -> (j < W)%nat ->
  let r := Z.of_nat i in
  let c := Z.of_nat j in
  window3 (pad_replicate_grid g) weight i j
  == grid_cell weight 0 0 * edge_cell g (r - 1) (c - 1)
     + grid_cell weight 0 1 * edge_cell g (r - 1) c
     + grid_cell weight 0 2 * edge_cell g (r - 1) (c + 1)
     + grid_cell weight 1 0 * edge_cell g r (c - 1)
     + grid_cell weight 1 1 * edge_cell g r c
     + grid_cell weight 1 2 * edge_cell g r (c + 1)
     + grid_cell weight 2 0 * edge_cell g (r + 1) (c - 1)
     + grid_cell weight 2 1 * edge_cell g (r + 1) c
     + grid_cell weight 2 2 * edge_cell g (r + 1) (c + 1).
Proof.
  intros Hs Hi Hj. cbv zeta.
  unfold window3. cbn [seq map Qsum fold_right].
  rewrite !(grid_cell_pad_replicate g H W) by in_range.
  replace (Z.of_nat (i + 0) - 1)%Z with (Z.of_nat i - 1)%Z by lia.
  replace (Z.of_nat (i + 1) - 1)%Z with (Z.of_nat i) by lia.
  replace (Z.of_nat (i + 2) - 1)%Z with (Z.of_nat i + 1)%Z by lia.
  replace (Z.of_nat (j + 0) - 1)%Z with (Z.of_nat j - 1)%Z by lia.
  replace (Z.of_nat (j + 1) - 1)%Z with (Z.of_nat j) by lia.
  replace (Z.of_nat (j + 2) - 1)%Z with (Z.of_nat j + 1)%Z by lia.
  ring.
Qed.

Lemma sobel_y_is_row_gradient (g : grid) (H W i j : nat) :
  shape2 g H W = true -> (i < H)%nat -> (j < W)%nat ->
  grid_cell (correlate3 (pad_replicate_grid g) sobel_y) i j == row_gradient g i j.
Proof.
  intros Hs Hi Hj.
  pose proof (shape2_pad_replicate_grid g H W Hs ltac:(lia) ltac:(lia)) as Hp.
  pose proof (shape2_hd _ _ _ Hp ltac:(lia)) as Hw.
  apply shape2_iff in Hp. destruct Hp as [Hl _].
  rewrite grid_cell_correlate3 by lia.
  rewrite (window3_pad_replicate g sobel_y H W i j Hs Hi Hj).
  unfold row_gradient. cbv zeta.
  change (grid_cell sobel_y 0 0) with (-1 / 8). change (grid_cell sobel_y 0 1) with (-2 / 8).
  change (grid_cell sobel_y 0 2) with (-1 / 8). change (grid_cell sobel_y 1 0) with (0 / 8).
  change (grid_cell sobel_y 1 1) with (0 / 8). change (grid_cell sobel_y 1 2) with (0 / 8).
  change (grid_cell sobel_y 2 0) with (1 / 8). change (grid_cell sobel_y 2 1) with (2 / 8).
  change (grid_cell sobel_y 2 2) with (1 / 8).
  field.
Qed.

Lemma sobel_x_is_col_gradient (g : grid) (H W i j : nat) :
  shape2 g H W = true -> (i < H)%nat -> (j < W)%nat ->
  grid_cell (correlate3 (pad_replicate_grid g) sobel_x) i j == col_gradient g i j.
Proof.
  intros Hs Hi Hj.
  pose proof (shape2_pad_replicate_grid g H W Hs ltac:(lia) ltac:(lia)) as Hp.
  pose proof (shape2_hd _ _ _ Hp ltac:(lia)) as Hw.
  apply shape2_iff in Hp. destruct Hp as [Hl _].
  rewrite grid_cell_correlate3 by lia.
  rewrite (window3_pad_replicate g sobel_x H W i j Hs Hi Hj).
  unfold col_gradient. cbv zeta.
  change (grid_cell sobel_x 0 0) with (-1 / 8). change (grid_cell sobel_x 0 1) with (0 / 8).
  change (grid_cell sobel_x 0 2) with (1 / 8). change (grid_cell sobel_x 1 0) with (-2 / 8).
  change (grid_cell sobel_x 1 1) with (0 / 8). change (grid_cell sobel_x 1 2) with (2 / 8).
  change (grid_cell sobel_x 2 0) with (-1 / 8). change (grid_cell sobel_x 2 1) with (0 / 8).
  change (grid_cell sobel_x 2 2) with (1 / 8).
  field.
Qed.

(** ** get_gradients *)

Lemma shape4_single_channel (t : tensor4) (B H W : nat) :
  shape4 t B 1 H W = true ->
  forallb (fun chans => (length chans =? 1)%nat) t = true.
Proof.
  intros Hs. apply shape4_iff in Hs. destruct Hs as [HB Hs].
  apply (forallb_nth _ t []). intros b Hb.
  specialize (Hs b ltac:(lia)). apply shape3_iff in Hs. destruct Hs as [HC _].
  apply Nat.eqb_eq. exact HC.
Qed.

Lemma single_channel_pad_replicate (t : tensor4) :
  forallb (fun chans => (length chans =? 1)%nat) t = true ->
  forallb (fun chans => (length chans =? 1)%nat) (pad_replicate t) = true.
Proof.
  unfold pad_replicate. induction t as [|cs t IH]; simpl; [reflexivity|].
  intros Hc. apply andb_true_iff in Hc. destruct Hc as [Hcs Ht].
  rewrite length_map, Hcs. simpl. apply IH, Ht.
Qed.

Lemma grid_sample_returns (input : tensor4) (grid : list (list (list (Q * Q)))) :
  length input = length grid ->
  grid_sample input grid = Returns (map2 sample_element input grid).
Proof.
  intros Hl. unfold grid_sample. rewrite Hl, Nat.eqb_refl. reflexivity.
Qed.

(** C5 (as amended): the source checks no shape at entry and knows no
    [ShapeMismatch] error.  When [sdf] has shape [B, 1, H, W] and [trajs]
    has another batch size, [get_gradients] raises the tensor library's
    [RuntimeError]: both gradient maps have been computed by then and the
    error comes from the first sampling call.  [compute_sdf] takes one
    tensor; for an occupancy input of shape [B', C, H', W'] with at least
    two channels it returns a field of shape [B', 1, H', W']. *)
Theorem batch_mismatch_raises_runtime_error (sigmoid : Q -> Q)
        (distance_transform : tensor4 -> tensor4) (self : SafetyBarrier)
        (sdf semantics : tensor4) (trajs : list (list (Q * Q))) (threshold : Q)
        (B H W B' C H' W' : nat) :
  shape4 sdf B 1 H W = true -> (1 <= H)%nat -> (1 <= W)%nat ->
  length trajs <> B ->
  shape4 semantics B' C H' W' = true -> (2 <= C)%nat ->
  shape4 (distance_transform (drivable_mask sigmoid semantics threshold)) B' 1 H' W' = true ->
  shape4 (distance_transform (non_drivable_mask sigmoid semantics threshold)) B' 1 H' W'
  = true ->
  get_gradients self sdf trajs = Raises "RuntimeError" /\
  (exists grad_x_map grad_y_map,
     conv2d (pad_replicate sdf) sobel_x = Returns grad_x_map /\
     conv2d (pad_replicate sdf) sobel_y = Returns grad_y_map /\
     grid_sample sdf
       (map (fun pts => [pts]) (metric_to_grid self trajs (height sdf) (width sdf)))
     = Raises "RuntimeError") /\
  exists field,
    compute_sdf sigmoid distance_transform self semantics threshold = Returns field /\
    shape4 field B' 1 H' W' = true.
Proof.
  intros Hs _ _ Hne Hsem HC Hd Hn.
  pose proof (shape4_single_channel sdf B H W Hs) as H1.
  pose proof (single_channel_pad_replicate sdf H1) as H1p.
  assert (HB : length sdf = B) by (apply shape4_iff in Hs; tauto).
  assert (Hgs : grid_sample sdf
            (map (fun pts => [pts]) (metric_to_grid self trajs (height sdf) (width sdf)))
          = Raises "RuntimeError").
  { apply grid_sample_batch_mismatch. rewrite length_grid_coords. lia. }
  split; [|split].
  - unfold get_gradients. rewrite !(conv2d_single_channel _ _ H1p). cbn [bind].
    rewrite Hgs. reflexivity.
  - do 2 eexists. rewrite !(conv2d_single_channel _ _ H1p). repeat split. exact Hgs.
  - eexists. split; [reflexivity|].
    rewrite shape4_map4. apply shape4_raw_sdf; assumption.
Qed.

Lemma batch_mismatch_raises_runtime_error_witness :
  get_gradients barrier_default sdf_small (trajs_small ++ trajs_small) = Raises "RuntimeError" /\
  (exists grad_x_map grad_y_map,
     conv2d (pad_replicate sdf_small) sobel_x = Returns grad_x_map /\
     conv2d (pad_replicate sdf_small) sobel_y = Returns grad_y_map /\
     grid_sample sdf_small
       (map (fun pts => [pts])
            (metric_to_grid barrier_default (trajs_small ++ trajs_small)
               (height sdf_small) (width sdf_small)))
     = Raises "RuntimeError") /\
  exists field,
    compute_sdf sigmoid_rational distance_transform_spec barrier_default semantics_small (1 # 2)
    = Returns field /\
    shape4 field 1 1 2 3 = true.
Proof.
  apply (batch_mismatch_raises_runtime_error sigmoid_rational distance_transform_spec
           barrier_default sdf_small semantics_small (trajs_small ++ trajs_small) (1 # 2)
           1 2 3 1 2 2 3).
  - reflexivity.
  - lia.
  - lia.
  - simpl. lia.
  - reflexivity.
  - lia.
  - reflexivity.
  - reflexivity.
Defined.

(** The samples of batch element [b], one list per point. *)
Lemma nth_view_sampled (t : tensor4) (coords : list (list (Q * Q))) (b : nat) :
  (b < length t)%nat -> (b < length coords)%nat -> length (nth b t []) = 1%nat ->
  nth b (view_B_N_1 (map2 sample_element t (map (fun pts => [pts]) coords))) []
  = map (fun p => [bilinear_sample (nth 0 (nth b t []) []) (fst p) (snd p)])
        (nth b coords []).
Proof.
  intros Hb Hc H1. unfold view_B_N_1.
  rewrite (nth_map_in _ _ b [] []) by (rewrite length_map2, length_map; lia).
  rewrite (nth_map2 sample_element _ _ b [] [] []) by (rewrite ?length_map; lia).
  rewrite (nth_map_in (fun pts => [pts]) coords b [] []) by lia.
  destruct (nth b t []) as [|g [|g' cs]]; simpl in H1; try lia.
  simpl. rewrite !app_nil_r, map_map. reflexivity.
Qed.

Lemma nth_conv_maps (sdf : tensor4) (weight : grid) (B H W b : nat) :
  shape4 sdf B 1 H W = true -> (b < B)%nat ->
  nth b (map (map (fun img => correlate3 img weight)) (pad_replicate sdf)) []
  = [correlate3 (pad_replicate_grid (nth 0 (nth b sdf []) [])) weight].
Proof.
  intros Hs Hb. apply shape4_iff in Hs. destruct Hs as [HB Hs].
  specialize (Hs b Hb). apply shape3_iff in Hs. destruct Hs as [HC _].
  unfold pad_replicate.
  rewrite (nth_map_in _ _ b [] []) by (rewrite length_map; lia).
  rewrite (nth_map_in (map pad_replicate_grid) sdf b [] []) by lia.
  destruct (nth b sdf []) as [|g [|g' cs]]; simpl in HC; try lia. reflexivity.
Qed.

Lemma shape4_height_width (sdf : tensor4) (B H W : nat) :
  shape4 sdf B 1 H W = true -> (1 <= B)%nat -> (1 <= H)%nat ->
  height sdf = H /\ width sdf = W.
Proof.
  intros Hs HB HH.
  destruct (shape4_lengths sdf B 1 H W 0 0 0 Hs) as (_ & _ & Hh & Hw); try lia.
  unfold height, width.
  destruct sdf as [|cs t]; [apply shape4_iff in Hs; simpl in Hs; lia|].
  simpl in *. destruct cs as [|g cs]; simpl in *; [lia|].
  destruct g as [|r g]; simpl in *; [lia|]. auto.
Qed.

(** What [get_gradients] returns for a well-shaped call, point by point. *)
Lemma get_gradients_returns (self : SafetyBarrier) (sdf : tensor4)
      (trajs : list (list (Q * Q))) (B H W : nat) :
  shape4 sdf B 1 H W = true -> length trajs = B -> (1 <= H)%nat ->
  exists h_val h_grad,
    get_gradients self sdf trajs = Returns (h_val, h_grad) /\
    forall b n, (b < B)%nat -> (n < length (nth b trajs []))%nat ->
      let g := nth 0 (nth b sdf []) [] in
      let xy := metric_to_grid_point self H W (nth n (nth b trajs []) (0, 0)) in
      nth n (nth b h_val []) [] = [bilinear_sample g (fst xy) (snd xy)] /\
      nth n (nth b h_grad []) []
      = [bilinear_sample (correlate3 (pad_replicate_grid g) sobel_y) (fst xy) (snd xy)
         / pixel_size self;
         bilinear_sample (correlate3 (pad_replicate_grid g) sobel_x) (fst xy) (snd xy)
         / pixel_size self].
Proof.
  intros Hs Ht HH.
  pose proof (shape4_single_channel sdf B H W Hs) as H1.
  pose proof (single_channel_pad_replicate sdf H1) as H1p.
  pose proof Hs as Hs'. apply shape4_iff in Hs'. destruct Hs' as [HB Hs'].
  unfold get_gradients.
  rewrite !(conv2d_single_channel _ _ H1p). cbn [bind].
  rewrite grid_sample_returns by (rewrite length_grid_coords; lia). cbn [bind].
  rewrite grid_sample_returns
    by (rewrite length_grid_coords; unfold pad_replicate; rewrite !length_map; lia).
  cbn [bind].
  rewrite grid_sample_returns
    by (rewrite length_grid_coords; unfold pad_replicate; rewrite !length_map; lia).
  cbn [bind].
  do 2 eexists. split; [reflexivity|].
  intros b n Hb Hn. cbv zeta.
  destruct (shape4_height_width sdf B H W Hs ltac:(lia) HH) as [Hh Hw].
  rewrite Hh, Hw.
  assert (Hlc : length (metric_to_grid self trajs H W) = length trajs)
    by (unfold metric_to_grid; apply length_map).
  assert (Hcb : nth b (metric_to_grid self trajs H W) []
                = map (metric_to_grid_point self H W) (nth b trajs [])).
  { unfold metric_to_grid. apply nth_map_in. lia. }
  assert (HC : length (nth b sdf []) = 1%nat).
  { specialize (Hs' b Hb). apply shape3_iff in Hs'. tauto. }
  split.
  - rewrite nth_view_sampled by lia.
    rewrite Hcb, map_map.
    rewrite (nth_map_in _ _ n (0, 0) []) by exact Hn. reflexivity.
  - rewrite (nth_map2 (map2 (@app Q)) _ _ b [] [] [])
      by (rewrite !length_map; unfold view_B_N_1; rewrite length_map, length_map2;
          unfold pad_replicate; rewrite !length_map; lia).
    rewrite !(nth_map_in (map (map (fun v => v / pixel_size self))) _ b [] [])
      by (unfold view_B_N_1; rewrite length_map, length_map2;
          unfold pad_replicate; rewrite !length_map; lia).
    rewrite !nth_view_sampled
      by (try (unfold pad_replicate; rewrite !length_map); try lia;
          rewrite (nth_conv_maps sdf _ B H W b Hs Hb); reflexivity).
    rewrite !(nth_conv_maps sdf _ B H W b Hs Hb). cbn [nth].
    rewrite Hcb, !map_map.
    rewrite (nth_map2 (@app Q) _ _ n [] [] []) by (rewrite length_map; exact Hn).
    rewrite !(nth_map_in _ _ n (0, 0) []) by exact Hn.
    reflexivity.
Qed.

(** C3: for [sdf] of shape [B, 1, H, W], [trajs] of shape [B, N, 2] and
    [pixel_size <> 0], [get_gradients] builds its two gradient maps from the field padded by
    one replicated cell on each side, with the two 3x3 Sobel kernels, whose
    weights are the integer Sobel weights divided by 8 and sum to zero: the
    map of [sobel_y] is the row-axis estimate and the map of [sobel_x] the
    column-axis estimate.  The gradient returned for a point is the pair
    (row-axis map, column-axis map), each sampled bilinearly at the point's
    grid coordinate and divided by [pixel_size]: the row-axis gradient is
    the forward component and the column-axis gradient the lateral one. *)
Theorem get_gradients_sobel (self : SafetyBarrier) (sdf : tensor4)
        (trajs : list (list (Q * Q))) (B H W : nat) :
  shape4 sdf B 1 H W = true -> length trajs = B -> (1 <= H)%nat -> (1 <= W)%nat ->
  ~ pixel_size self == 0 ->
  sobel_x = map_grid (fun v => v / 8) [[-1; 0; 1]; [-2; 0; 2]; [-1; 0; 1]] /\
  sobel_y = map_grid (fun v => v / 8) [[-1; -2; -1]; [0; 0; 0]; [1; 2; 1]] /\
  Qsum (concat sobel_x) == 0 /\
  Qsum (concat sobel_y) == 0 /\
  exists h_val h_grad,
    get_gradients self sdf trajs = Returns (h_val, h_grad) /\
    forall b n, (b < B)%nat -> (n < length (nth b trajs []))%nat ->
      let g := nth 0 (nth b sdf []) [] in
      let col_axis_map := correlate3 (pad_replicate_grid g) sobel_x in
      let row_axis_map := correlate3 (pad_replicate_grid g) sobel_y in
      let xy := metric_to_grid_point self H W (nth n (nth b trajs []) (0, 0)) in
      (forall i j, (i < H)%nat -> (j < W)%nat ->
         grid_cell row_axis_map i j == row_gradient g i j /\
         grid_cell col_axis_map i j == col_gradient g i j) /\
      nth n (nth b h_grad []) []
      = [bilinear_sample row_axis_map (fst xy) (snd xy) / pixel_size self;
         bilinear_sample col_axis_map (fst xy) (snd xy) / pixel_size self].
Proof.
  intros Hs Ht HH HW _.
  split; [reflexivity|]. split; [reflexivity|].
  split; [reflexivity|]. split; [reflexivity|].
  destruct (get_gradients_returns self sdf trajs B H W Hs Ht HH) as (hv & hg & Hret & Hpt).
  exists hv, hg. split; [exact Hret|].
  intros b n Hb Hn. cbv zeta.
  destruct (Hpt b n Hb Hn) as [_ Hg].
  split; [|exact Hg].
  intros i j Hi Hj.
  assert (Hg2 : shape2 (nth 0 (nth b sdf []) []) H W = true).
  { apply shape4_iff in Hs. destruct Hs as [_ Hs]. specialize (Hs b Hb).
    apply shape3_iff in Hs. destruct Hs as [_ Hs]. apply Hs. lia. }
  split.
  - apply (sobel_y_is_row_gradient _ H W); assumption.
  - apply (sobel_x_is_col_gradient _ H W); assumption.
Qed.

Lemma get_gradients_sobel_witness :
  exists h_val h_grad,
    get_gradients barrier_default sdf_small trajs_small = Returns (h_val, h_grad) /\
    forall b n, (b < 1)%nat -> (n < length (nth b trajs_small []))%nat ->
      let g := nth 0 (nth b sdf_small []) [] in
      let col_axis_map := correlate3 (pad_replicate_grid g) sobel_x in
      let row_axis_map := correlate3 (pad_replicate_grid g) sobel_y in
      let xy := metric_to_grid_point barrier_default 2 3 (nth n (nth b trajs_small []) (0, 0)) in
      (forall i j, (i < 2)%nat -> (j < 3)%nat ->
         grid_cell row_axis_map i j == row_gradient g i j /\
         grid_cell col_axis_map i j == col_gradient g i j) /\
      nth n (nth b h_grad []) []
      = [bilinear_sample row_axis_map (fst xy) (snd xy) / pixel_size barrier_default;
         bilinear_sample col_axis_map (fst xy) (snd xy) / pixel_size barrier_default].
Proof.
  apply (get_gradients_sobel barrier_default sdf_small trajs_small 1 2 3).
  - reflexivity.
  - reflexivity.
  - lia.
  - lia.
  - discriminate.
Defined.

(** The row-axis estimate on a concrete field: rows [1 2 4] and [3 5 9]
    differ by 2, 3 and 5; with the replicated border the estimate at cell
    (0, 1) is (2 + 2 * 3 + 5) / 8. *)
Example row_gradient_small :
  row_gradient [[1; 2; 4]; [3; 5; 9]] 0 1 == 13 # 8.
Proof. reflexivity. Qed.

Example get_gradients_small :
  exists h_val h_grad,
    get_gradients barrier_default sdf_small trajs_small = Returns (h_val, h_grad) /\
    map (map (map Qred)) h_val = [[[3]; [11 # 4]]] /\
    map (map (map Qred)) h_grad = [[[31 # 4; 25 # 4]; [11 # 2; 6]]].
Proof. do 2 eexists. split; [vm_compute; reflexivity|]. split; reflexivity. Qed.

(** ** Bilinear sampling stays inside the range of the grid *)

Lemma clip_coordinates_bounds (coord : Q) (size : nat) :
  (1 <= size)%nat ->
  0 <= clip_coordinates coord size <= inject_Z (Z.of_nat size - 1).
Proof.
  intros Hs. unfold clip_coordinates. split.
  - apply Q.min_glb; [|apply Q.le_max_r].
    change 0 with (inject_Z 0). rewrite <- Zle_Qle. lia.
  - apply Q.le_min_l.
Qed.

(** Along one axis: the floor [k] of a clipped coordinate is a valid index,
    the two weights are non-negative and sum to one, and the neighbour
    [k + 1] falls outside the axis only when its weight is zero. *)
Lemma axis_weights (coord : Q) (size : nat) :
  (1 <= size)%nat ->
  let c := clip_coordinates coord size in
  let k := Qfloor c in
  (0 <= k < Z.of_nat size)%Z /\
  0 <= inject_Z (k + 1) - c /\
  0 <= c - inject_Z k /\
  (inject_Z (k + 1) - c) + (c - inject_Z k) == 1 /\
  ((k + 1 < Z.of_nat size)%Z \/ c - inject_Z k == 0).
Proof.
  intros Hs. cbv zeta.
  destruct (clip_coordinates_bounds coord size Hs) as [H0 Hmax].
  set (c := clip_coordinates coord size) in *.
  pose proof (Qfloor_le c) as Hfl.
  pose proof (Qlt_floor c) as Hlt.
  assert (Hk0 : (0 <= Qfloor c)%Z).
  { change 0%Z with (Qfloor (inject_Z 0)). apply Qfloor_resp_le. exact H0. }
  assert (Hk1 : (Qfloor c <= Z.of_nat size - 1)%Z).
  { rewrite <- (Qfloor_Z (Z.of_nat size - 1)). apply Qfloor_resp_le. exact Hmax. }
  rewrite inject_Z_plus in *. change (inject_Z 1) with 1 in *.
  split; [lia|]. split; [lra|]. split; [lra|]. split; [ring|].
  destruct (Z.eq_dec (Qfloor c) (Z.of_nat size - 1)) as [Heq|Hne]; [right | left; lia].
  rewrite Heq in *. lra.
Qed.

(** One corner of the interpolation: it is weighted by [w >= 0], and it
    lies outside the grid only when [w] is zero. *)
Lemma pixel_term (g : grid) (H W : nat) (lo hi w : Q) (iy ix : Z) :
  shape2 g H W = true -> (1 <= H)%nat ->
  (forall i j, (i < H)%nat -> (j < W)%nat -> lo <= grid_cell g i j <= hi) ->
  0 <= w ->
  ((0 <= iy < Z.of_nat H)%Z /\ (0 <= ix < Z.of_nat W)%Z) \/ w == 0 ->
  lo * w <= pixel g iy ix * w <= hi * w.
Proof.
  intros Hs HH Hb Hw Hin. unfold pixel.
  rewrite (shape2_hd g H W Hs HH).
  apply shape2_iff in Hs. destruct Hs as [Hl _]. rewrite Hl.
  unfold within_bounds.
  destruct ((0 <=? iy)%Z && (iy <? Z.of_nat H)%Z && (0 <=? ix)%Z && (ix <? Z.of_nat W)%Z)
    eqn:Hwb.
  - rewrite !andb_true_iff in Hwb. destruct Hwb as [[[Hy0 Hy1] Hx0] Hx1].
    apply Z.leb_le in Hy0, Hx0. apply Z.ltb_lt in Hy1, Hx1.
    destruct (Hb (Z.to_nat iy) (Z.to_nat ix)) as [Hlo Hhi]; try lia.
    split; apply Qmult_le_compat_r; assumption.
  - destruct Hin as [[Hy Hx]|H0].
    + exfalso. rewrite !andb_false_iff in Hwb.
      rewrite !Z.leb_gt, !Z.ltb_ge in Hwb. lia.
    + rewrite H0. split; lra.
Qed.

Lemma bilinear_sample_bounds (g : grid) (H W : nat) (lo hi x y : Q) :
  shape2 g H W = true -> (1 <= H)%nat -> (1 <= W)%nat ->
  (forall i j, (i < H)%nat -> (j < W)%nat -> lo <= grid_cell g i j <= hi) ->
  lo <= bilinear_sample g x y <= hi.
Proof.
  intros Hs HH HW Hb. unfold bilinear_sample.
  rewrite (shape2_hd g H W Hs HH).
  pose proof Hs as Hs'. apply shape2_iff in Hs'. destruct Hs' as [Hl _]. rewrite Hl.
  destruct (axis_weights (unnormalize x W) W HW) as (Hkx & Hx0 & Hx1 & Hxs & Hxe).
  destruct (axis_weights (unnormalize y H) H HH) as (Hky & Hy0 & Hy1 & Hys & Hye).
  cbv zeta.
  set (cx := clip_coordinates (unnormalize x W) W) in *.
  set (cy := clip_coordinates (unnormalize y H) H) in *.
  set (kx := Qfloor cx) in *. set (ky := Qfloor cy) in *.
  set (wx0 := inject_Z (kx + 1) - cx) in *. set (wx1 := cx - inject_Z kx) in *.
  set (wy0 := inject_Z (ky + 1) - cy) in *. set (wy1 := cy - inject_Z ky) in *.
  assert (Hnw : lo * (wx0 * wy0) <= pixel g ky kx * (wx0 * wy0) <= hi * (wx0 * wy0)).
  { apply (pixel_term g H W); try assumption.
    - apply Qmult_le_0_compat; assumption.
    - left. lia. }
  assert (Hne : lo * (wx1 * wy0) <= pixel g ky (kx + 1) * (wx1 * wy0) <= hi * (wx1 * wy0)).
  { apply (pixel_term g H W); try assumption.
    - apply Qmult_le_0_compat; assumption.
    - destruct Hxe as [Hin|Hz]; [left; lia | right; rewrite Hz; ring]. }
  assert (Hsw : lo * (wx0 * wy1) <= pixel g (ky + 1) kx * (wx0 * wy1) <= hi * (wx0 * wy1)).
  { apply (pixel_term g H W); try assumption.
    - apply Qmult_le_0_compat; assumption.
    - destruct Hye as [Hin|Hz]; [left; lia | right; rewrite Hz; ring]. }
  assert (Hse : lo * (wx1 * wy1) <= pixel g (ky + 1) (kx + 1) * (wx1 * wy1)
                <= hi * (wx1 * wy1)).
  { apply (pixel_term g H W); try assumption.
    - apply Qmult_le_0_compat; assumption.
    - destruct Hxe as [Hinx|Hz]; [|right; rewrite Hz; ring].
      destruct Hye as [Hiny|Hz]; [left; lia | right; rewrite Hz; ring]. }
  assert (Hsum : wx0 * wy0 + wx1 * wy0 + wx0 * wy1 + wx1 * wy1 == 1).
  { transitivity ((wx0 + wx1) * (wy0 + wy1)); [ring|]. rewrite Hxs, Hys. reflexivity. }
  assert (Hlo : lo == lo * (wx0 * wy0) + lo * (wx1 * wy0) + lo * (wx0 * wy1)
                      + lo * (wx1 * wy1)).
  { transitivity (lo * (wx0 * wy0 + wx1 * wy0 + wx0 * wy1 + wx1 * wy1)); [|ring].
    rewrite Hsum. ring. }
  assert (Hhi : hi == hi * (wx0 * wy0) + hi * (wx1 * wy0) + hi * (wx0 * wy1)
                      + hi * (wx1 * wy1)).
  { transitivity (hi * (wx0 * wy0 + wx1 * wy0 + wx0 * wy1 + wx1 * wy1)); [|ring].
    rewrite Hsum. ring. }
  destruct Hnw as [Hnw1 Hnw2], Hne as [Hne1 Hne2], Hsw as [Hsw1 Hsw2], Hse as [Hse1 Hse2].
  split.
  - rewrite Hlo. repeat apply Qplus_le_compat; assumption.
  - rewrite Hhi. repeat apply Qplus_le_compat; assumption.
Qed.

Lemma fold_min_le (l : list Q) (v x : Q) :
  In x (v :: l) -> fold_right Qmin v l <= x.
Proof.
  induction l as [|a l IH]; simpl; intros Hin.
  - destruct Hin as [<-|[]]. apply Qle_refl.
  - destruct Hin as [<-|[<-|Hin]].
    + eapply Qle_trans; [apply Q.le_min_r | apply IH; left; reflexivity].
    + apply Q.le_min_l.
    + eapply Qle_trans; [apply Q.le_min_r | apply IH; right; exact Hin].
Qed.

Lemma fold_max_ge (l : list Q) (v x : Q) :
  In x (v :: l) -> x <= fold_right Qmax v l.
Proof.
  induction l as [|a l IH]; simpl; intros Hin.
  - destruct Hin as [<-|[]]. apply Qle_refl.
  - destruct Hin as [<-|[<-|Hin]].
    + eapply Qle_trans; [apply IH; left; reflexivity | apply Q.le_max_r].
    + apply Q.le_max_l.
    + eapply Qle_trans; [apply IH; right; exact Hin | apply Q.le_max_r].
Qed.

Lemma grid_cell_in_concat (g : grid) (H W i j : nat) :
  shape2 g H W = true -> (i < H)%nat -> (j < W)%nat ->
  In (grid_cell g i j) (concat g).
Proof.
  intros Hs Hi Hj. apply shape2_iff in Hs. destruct Hs as [Hl Hr].
  apply in_concat. exists (nth i g []). split.
  - apply nth_In. lia.
  - unfold grid_cell. apply nth_In. rewrite (Hr i Hi). exact Hj.
Qed.

Lemma grid_min_max_bounds (g : grid) (H W i j : nat) :
  shape2 g H W = true -> (i < H)%nat -> (j < W)%nat ->
  grid_min g <= grid_cell g i j <= grid_max g.
Proof.
  intros Hs Hi Hj. pose proof (grid_cell_in_concat g H W i j Hs Hi Hj) as Hin.
  unfold grid_min, grid_max. destruct (concat g) as [|v vs]; [contradiction|].
  split; [apply fold_min_le | apply fold_max_ge]; exact Hin.
Qed.

(** C10: for [sdf] of shape [B, 1, H, W] with a non-empty grid and any
    trajectory point, inside the grid's extent or not, the clearance value
    [get_gradients] returns for the point lies between the smallest and the
    largest cell of the point's [sdf] grid. *)
Theorem sampled_value_in_grid_range (self : SafetyBarrier) (sdf : tensor4)
        (trajs : list (list (Q * Q))) (B H W b n : nat) :
  shape4 sdf B 1 H W = true -> length trajs = B -> (1 <= H)%nat -> (1 <= W)%nat ->
  (b < B)%nat -> (n < length (nth b trajs []))%nat ->
  exists h_val h_grad v,
    get_gradients self sdf trajs = Returns (h_val, h_grad) /\
    nth n (nth b h_val []) [] = [v] /\
    grid_min (nth 0 (nth b sdf []) []) <= v <= grid_max (nth 0 (nth b sdf []) []).
Proof.
  intros Hs Ht HH HW Hb Hn.
  destruct (get_gradients_returns self sdf trajs B H W Hs Ht HH) as (hv & hg & Hret & Hpt).
  destruct (Hpt b n Hb Hn) as [Hv _]. cbv zeta in Hv.
  exists hv, hg. eexists. split; [exact Hret|]. split; [exact Hv|].
  assert (Hg2 : shape2 (nth 0 (nth b sdf []) []) H W = true).
  { apply shape4_iff in Hs. destruct Hs as [_ Hs]. specialize (Hs b Hb).
    apply shape3_iff in Hs. destruct Hs as [_ Hs]. apply Hs. lia. }
  apply (bilinear_sample_bounds _ H W); try assumption.
  intros i j Hi Hj. apply (grid_min_max_bounds _ H W); assumption.
Qed.

Lemma sampled_value_in_grid_range_witness :
  exists h_val h_grad v,
    get_gradients barrier_default sdf_small trajs_outside = Returns (h_val, h_grad) /\
    nth 0 (nth 0 h_val []) [] = [v] /\
    grid_min (nth 0 (nth 0 sdf_small []) []) <= v <= grid_max (nth 0 (nth 0 sdf_small []) []).
Proof.
  apply (sampled_value_in_grid_range barrier_default sdf_small trajs_outside 1 2 3 0 0).
  - reflexivity.
  - reflexivity.
  - lia.
  - lia.
  - lia.
  - simpl. lia.
Defined.

(** The point of [trajs_outside] is pinned to the last row and the first
    column of the 2x3 field, whose cell holds 3. *)
Example get_gradients_outside :
  exists h_val h_grad,
    get_gradients barrier_default sdf_small trajs_outside = Returns (h_val, h_grad) /\
    map (map (map Qred)) h_val = [[[3]]].
Proof. do 2 eexists. split; [vm_compute; reflexivity | reflexivity]. Qed.

(** ** The reference distance transform *)

Lemma shape2_distance_transform_grid (m : grid) (H W : nat) :
  shape2 m H W = true -> shape2 (distance_transform_grid m) H W = true.
Proof.
  intros Hs. apply shape2_iff in Hs. destruct Hs as [Hl Hr].
  apply shape2_iff. unfold distance_transform_grid.
  rewrite length_map, length_seq. split; [exact Hl|].
  intros i Hi. rewrite nth_seq_map by lia.
  rewrite length_map, length_seq. apply Hr, Hi.
Qed.

Lemma shape4_distance_transform_spec (t : tensor4) (B C H W : nat) :
  shape4 t B C H W = true -> shape4 (distance_transform_spec t) B C H W = true.
Proof.
  intros Hs. apply shape4_iff in Hs. destruct Hs as [HB Hs].
  apply shape4_iff. unfold distance_transform_spec.
  split; [rewrite length_map; exact HB|]. intros b Hb.
  rewrite (nth_map_in (map distance_transform_grid) t b [] []) by lia.
  specialize (Hs b Hb). apply shape3_iff in Hs. destruct Hs as [HC Hs].
  apply shape3_iff. split; [rewrite length_map; exact HC|]. intros c Hc.
  rewrite (nth_map_in distance_transform_grid _ c [] []) by lia.
  apply shape2_distance_transform_grid, Hs, Hc.
Qed.

(** ** Masks whose cells are all equal *)

(** C8: the field on a fully drivable or fully non-drivable scene, for a
    distance transform that is zero at every cell of both masks, which is
    what the library the source calls returns when all cells of a mask are
    equal.  The field before the margin is zero at every cell, neither
    strictly positive nor strictly negative, and [compute_sdf] returns
    [-ego_radius] everywhere, for the fully drivable scene as for the
    fully non-drivable one. *)
Theorem degenerate_masks_give_zero_field (sigmoid : Q -> Q)
        (distance_transform : tensor4 -> tensor4) (self : SafetyBarrier)
        (semantics : tensor4) (threshold all : Q) (B C H W : nat) :
  shape4 semantics B C H W = true -> (2 <= C)%nat ->
  shape4 (distance_transform (drivable_mask sigmoid semantics threshold)) B 1 H W = true ->
  shape4 (distance_transform (non_drivable_mask sigmoid semantics threshold)) B 1 H W = true ->
  all = 1 \/ all = 0 ->
  (forall b i j, (b < B)%nat -> (i < H)%nat -> (j < W)%nat ->
     cell (drivable_mask sigmoid semantics threshold) b 0 i j = all) ->
  (forall b i j, (b < B)%nat -> (i < H)%nat -> (j < W)%nat ->
     cell (distance_transform (drivable_mask sigmoid semantics threshold)) b 0 i j == 0 /\
     cell (distance_transform (non_drivable_mask sigmoid semantics threshold)) b 0 i j == 0) ->
  exists sdf,
    compute_sdf sigmoid distance_transform self semantics threshold = Returns sdf /\
    forall b i j, (b < B)%nat -> (i < H)%nat -> (j < W)%nat ->
      let raw := cell (raw_sdf sigmoid distance_transform semantics threshold) b 0 i j in
      raw == 0 /\ ~ 0 < raw /\ ~ raw < 0 /\
      cell sdf b 0 i j == - ego_radius self.
Proof.
  intros Hs HC Hd Hn _ _ Hzero. eexists. split; [reflexivity|].
  pose proof (shape4_raw_sdf sigmoid distance_transform semantics threshold B 1 H W Hd Hn)
    as Hraw.
  intros b i j Hb Hi Hj. cbv zeta.
  destruct (Hzero b i j Hb Hi Hj) as [Hz1 Hz0].
  assert (Hr : cell (raw_sdf sigmoid distance_transform semantics threshold) b 0 i j == 0).
  { rewrite (cell_raw_sdf sigmoid distance_transform semantics threshold B 1 H W) by in_range.
    rewrite Hz1, Hz0. reflexivity. }
  rewrite (cell_map4 _ _ B 1 H W) by in_range.
  rewrite Hr. repeat split.
  - intros Habs. discriminate Habs.
  - intros Habs. discriminate Habs.
  - ring.
Qed.

Lemma degenerate_masks_give_zero_field_witness :
  exists sdf,
    compute_sdf sigmoid_rational (map4 (fun _ => 0)) barrier_default
      semantics_all_road (1 # 2) = Returns sdf /\
    forall b i j, (b < 1)%nat -> (i < 2)%nat -> (j < 2)%nat ->
      let raw := cell (raw_sdf sigmoid_rational (map4 (fun _ => 0))
                         semantics_all_road (1 # 2)) b 0 i j in
      raw == 0 /\ ~ 0 < raw /\ ~ raw < 0 /\
      cell sdf b 0 i j == - ego_radius barrier_default.
Proof.
  apply (degenerate_masks_give_zero_field sigmoid_rational (map4 (fun _ => 0))
           barrier_default semantics_all_road (1 # 2) 1 1 2 2 2).
  - reflexivity.
  - lia.
  - reflexivity.
  - reflexivity.
  - left. reflexivity.
  - intros b i j Hb Hi Hj.
    destruct b as [|b]; [|lia].
    destruct i as [|[|i]]; [| |lia]; (destruct j as [|[|j]]; [| |lia]); reflexivity.
  - intros b i j Hb Hi Hj.
    destruct b as [|b]; [|lia].
    destruct i as [|[|i]]; [| |lia]; (destruct j as [|[|j]]; [| |lia]); split; reflexivity.
Defined.

(** ** The ego origin on a 64x64 grid *)

Lemma pixel_in_bounds (g : grid) (H W r c : nat) :
  shape2 g H W = true -> (r < H)%nat -> (c < W)%nat ->
  pixel g (Z.of_nat r) (Z.of_nat c) = grid_cell g r c.
Proof.
  intros Hs Hr Hc. unfold pixel.
  rewrite (shape2_hd g H W Hs ltac:(lia)).
  apply shape2_iff in Hs. destruct Hs as [Hl _]. rewrite Hl.
  unfold within_bounds.
  replace (0 <=? Z.of_nat r)%Z with true by (symmetry; apply Z.leb_le; lia).
  replace (Z.of_nat r <? Z.of_nat H)%Z with true by (symmetry; apply Z.ltb_lt; lia).
  replace (0 <=? Z.of_nat c)%Z with true by (symmetry; apply Z.leb_le; lia).
  replace (Z.of_nat c <? Z.of_nat W)%Z with true by (symmetry; apply Z.ltb_lt; lia).
  simpl. rewrite !Nat2Z.id. reflexivity.
Qed.

(** A coordinate that lands on the centre of cell [(r, c)] samples that
    cell. *)
Lemma bilinear_sample_at_cell (g : grid) (H W r c : nat) (x y : Q) :
  shape2 g H W = true -> (r < H)%nat -> (c < W)%nat ->
  clip_coordinates (unnormalize x W) W == inject_Z (Z.of_nat c) ->
  clip_coordinates (unnormalize y H) H == inject_Z (Z.of_nat r) ->
  bilinear_sample g x y == grid_cell g r c.
Proof.
  intros Hs Hr Hc Hx Hy. unfold bilinear_sample.
  rewrite (shape2_hd g H W Hs ltac:(lia)).
  pose proof Hs as Hs'. apply shape2_iff in Hs'. destruct Hs' as [Hl _]. rewrite Hl.
  cbv zeta.
  rewrite (Qfloor_comp _ _ Hx), (Qfloor_comp _ _ Hy), !Qfloor_Z.
  rewrite Hx, Hy.
  rewrite (pixel_in_bounds g H W r c Hs Hr Hc).
  rewrite !inject_Z_plus. change (inject_Z 1) with 1.
  ring.
Qed.

(** With [pixel_size = 1/4] the point (0, 0) addresses row 0, column 32 of
    a 64x64 field. *)
Lemma origin_sample_64 (self : SafetyBarrier) (sdf : tensor4) :
  pixel_size self = 1 # 4 -> shape4 sdf 1 1 64 64 = true ->
  exists h_val h_grad v,
    get_gradients self sdf trajs_origin = Returns (h_val, h_grad) /\
    nth 0 (nth 0 h_val []) [] = [v] /\
    v == cell sdf 0 0 0 32.
Proof.
  intros Hp Hs.
  destruct (get_gradients_returns self sdf trajs_origin 1 64 64 Hs eq_refl ltac:(lia))
    as (hv & hg & Hret & Hpt).
  destruct (Hpt 0%nat 0%nat ltac:(lia) ltac:(simpl; lia)) as [Hv _]. cbv zeta in Hv.
  exists hv, hg. eexists. split; [exact Hret|]. split; [exact Hv|].
  assert (Hg2 : shape2 (nth 0 (nth 0 sdf []) []) 64 64 = true).
  { apply shape4_iff in Hs. destruct Hs as [_ Hs]. specialize (Hs 0%nat ltac:(lia)).
    apply shape3_iff in Hs. destruct Hs as [_ Hs]. apply Hs. lia. }
  unfold cell.
  apply (bilinear_sample_at_cell _ 64 64 0 32); try assumption; try lia.
  - unfold metric_to_grid_point. rewrite Hp. vm_compute. reflexivity.
  - unfold metric_to_grid_point. rewrite Hp. vm_compute. reflexivity.
Qed.

Lemma origin_clearance_raw (sigmoid : Q -> Q) (distance_transform : tensor4 -> tensor4)
      (self : SafetyBarrier) (semantics : tensor4) (threshold : Q) :
  pixel_size self = 1 # 4 ->
  shape4 (distance_transform (drivable_mask sigmoid semantics threshold)) 1 1 64 64 = true ->
  shape4 (distance_transform (non_drivable_mask sigmoid semantics threshold)) 1 1 64 64 = true ->
  exists sdf h_val h_grad v,
    compute_sdf sigmoid distance_transform self semantics threshold = Returns sdf /\
    get_gradients self sdf trajs_origin = Returns (h_val, h_grad) /\
    nth 0 (nth 0 h_val []) [] = [v] /\
    v == cell (raw_sdf sigmoid distance_transform semantics threshold) 0 0 0 32 * (1 # 4)
         - ego_radius self.
Proof.
  intros Hp Hd Hn.
  pose proof (shape4_raw_sdf sigmoid distance_transform semantics threshold 1 1 64 64 Hd Hn)
    as Hraw.
  eexists. 
  destruct (origin_sample_64 self
              (map4 (fun v => v * pixel_size self - ego_radius self)
                    (raw_sdf sigmoid distance_transform semantics threshold)) Hp)
    as (hv & hg & v & Hret & Hv & Hval).
  { rewrite shape4_map4. exact Hraw. }
  exists hv, hg, v. split; [reflexivity|]. split; [exact Hret|]. split; [exact Hv|].
  rewrite Hval. rewrite (cell_map4 _ _ 1 1 64 64) by in_range.
  rewrite Hp. reflexivity.
Qed.

Lemma nth_repeat_lt {A : Type} (a d : A) (n i : nat) :
  (i < n)%nat -> nth i (repeat a n) d = a.
Proof.
  revert i. induction n as [|n IH]; intros [|i] Hi; simpl; try lia; auto.
  apply IH. lia.
Qed.

Lemma drivable64_all_ones (i j : nat) :
  (i < 64)%nat -> (j < 64)%nat ->
  cell (drivable_mask sigmoid_rational semantics_drivable64 (1 # 2)) 0 0 i j = 1.
Proof.
  intros Hi Hj.
  rewrite (cell_drivable_mask sigmoid_rational semantics_drivable64 (1 # 2) 1 2 64 64)
    by (try reflexivity; lia).
  replace (cell semantics_drivable64 0 1 i j) with 1; [reflexivity|].
  unfold cell, semantics_drivable64, grid_cell. cbn [nth].
  rewrite (nth_repeat_lt _ [] 64 i Hi). rewrite (nth_repeat_lt _ 0 64 j Hj). reflexivity.
Qed.

(** C4: the clearance at the ego origin of a fully drivable 64x64 scene
    with [pixel_size = 1/4], for a distance transform that is zero at cell
    (0, 32) on both masks, which is what the library the source calls
    returns when all cells of a mask are equal.  The point (0, 0) samples
    the field at row 0, column 32, and the clearance [get_gradients]
    returns on the field of [compute_sdf] is [-ego_radius]: 8 m below
    (64 / 2) * 1/4 - [ego_radius], and not positive for any
    [ego_radius >= 0]. *)
Theorem origin_clearance_is_minus_ego_radius (sigmoid : Q -> Q)
        (distance_transform : tensor4 -> tensor4)
        (self : SafetyBarrier) (semantics : tensor4) (threshold : Q) (C : nat) :
  pixel_size self = 1 # 4 ->
  shape4 semantics 1 C 64 64 = true -> (2 <= C)%nat ->
  (forall i j, (i < 64)%nat -> (j < 64)%nat ->
     cell (drivable_mask sigmoid semantics threshold) 0 0 i j = 1) ->
  shape4 (distance_transform (drivable_mask sigmoid semantics threshold)) 1 1 64 64 = true ->
  shape4 (distance_transform (non_drivable_mask sigmoid semantics threshold)) 1 1 64 64 = true ->
  cell (distance_transform (drivable_mask sigmoid semantics threshold)) 0 0 0 32 == 0 ->
  cell (distance_transform (non_drivable_mask sigmoid semantics threshold)) 0 0 0 32 == 0 ->
  exists sdf h_val h_grad v,
    compute_sdf sigmoid distance_transform self semantics threshold = Returns sdf /\
    get_gradients self sdf trajs_origin = Returns (h_val, h_grad) /\
    nth 0 (nth 0 h_val []) [] = [v] /\
    v == cell sdf 0 0 0 32 /\
    v == - ego_radius self /\
    (64 / 2) * (1 # 4) - ego_radius self - v == 8 /\
    ~ v == (64 / 2) * (1 # 4) - ego_radius self /\
    (0 <= ego_radius self -> ~ 0 < v).
Proof.
  intros Hp Hs HC _ Hd Hn Hz1 Hz0.
  destruct (origin_clearance_raw sigmoid distance_transform self semantics threshold Hp Hd Hn)
    as (sdf & hv & hg & v & Hsdf & Hret & Hv & Hval).
  exists sdf, hv, hg, v. split; [exact Hsdf|]. split; [exact Hret|]. split; [exact Hv|].
  pose proof (shape4_raw_sdf sigmoid distance_transform semantics threshold 1 1 64 64 Hd Hn)
    as Hraw.
  split.
  { unfold compute_sdf in Hsdf. inversion Hsdf; subst sdf.
    rewrite (cell_map4 _ _ 1 1 64 64) by in_range. rewrite Hp. exact Hval. }
  assert (Hneg : v == - ego_radius self).
  { rewrite Hval.
    rewrite (cell_raw_sdf sigmoid distance_transform semantics threshold 1 1 64 64) by in_range.
    rewrite Hz1, Hz0. ring. }
  split; [exact Hneg|].
  split; [rewrite Hneg; unfold Qdiv; change (/ 2) with (1 # 2); ring|].
  split.
  - intros Habs. rewrite Hneg in Habs. unfold Qdiv in Habs.
    change (/ 2) with (1 # 2) in Habs. lra.
  - intros Hr Hpos. rewrite Hneg in Hpos. lra.
Qed.

Lemma origin_clearance_is_minus_ego_radius_witness :
  exists sdf h_val h_grad v,
    compute_sdf sigmoid_rational (map4 (fun _ => 0)) barrier_default
      semantics_drivable64 (1 # 2) = Returns sdf /\
    get_gradients barrier_default sdf trajs_origin = Returns (h_val, h_grad) /\
    nth 0 (nth 0 h_val []) [] = [v] /\
    v == cell sdf 0 0 0 32 /\
    v == - ego_radius barrier_default /\
    (64 / 2) * (1 # 4) - ego_radius barrier_default - v == 8 /\
    ~ v == (64 / 2) * (1 # 4) - ego_radius barrier_default /\
    (0 <= ego_radius barrier_default -> ~ 0 < v).
Proof.
  apply (origin_clearance_is_minus_ego_radius sigmoid_rational (map4 (fun _ => 0))
           barrier_default semantics_drivable64 (1 # 2) 2).
  - reflexivity.
  - reflexivity.
  - lia.
  - intros i j Hi Hj. apply drivable64_all_ones; assumption.
  - vm_compute. reflexivity.
  - vm_compute. reflexivity.
  - vm_compute. reflexivity.
  - vm_compute. reflexivity.
Defined.

(** ** Further properties *)

(** X1, scale: halving [pixel_size], with the input, the threshold and
    [ego_radius] fixed, halves the field before the margin is subtracted. *)
Theorem pixel_size_scales_field (sigmoid : Q -> Q) (distance_transform : tensor4 -> tensor4)
        (self : SafetyBarrier) (semantics : tensor4) (threshold : Q) (B C H W : nat) :
  shape4 semantics B C H W = true ->
  (2 <= C)%nat ->
  shape4 (distance_transform (drivable_mask sigmoid semantics threshold)) B 1 H W = true ->
  shape4 (distance_transform (non_drivable_mask sigmoid semantics threshold)) B 1 H W = true ->
  exists sdf sdf',
    compute_sdf sigmoid distance_transform self semantics threshold = Returns sdf /\
    compute_sdf sigmoid distance_transform
      {| pixel_size := pixel_size self / 2;
         ego_radius := ego_radius self;
         bev_range := bev_range self |} semantics threshold = Returns sdf' /\
    forall b i j, (b < B)%nat -> (i < H)%nat -> (j < W)%nat ->
      cell sdf' b 0 i j + ego_radius self == (cell sdf b 0 i j + ego_radius self) / 2.
Proof.
  intros Hs HC Hd Hn. do 2 eexists. split; [reflexivity|]. split; [reflexivity|].
  intros b i j Hb Hi Hj.
  pose proof (shape4_raw_sdf sigmoid distance_transform semantics threshold B 1 H W Hd Hn)
    as Hraw.
  rewrite !(cell_map4 _ _ B 1 H W) by in_range.
  simpl. field.
Qed.

Lemma pixel_size_scales_field_witness :
  exists sdf sdf',
    compute_sdf sigmoid_rational distance_transform_spec barrier_default semantics_small (1 # 2)
    = Returns sdf /\
    compute_sdf sigmoid_rational distance_transform_spec
      {| pixel_size := pixel_size barrier_default / 2;
         ego_radius := ego_radius barrier_default;
         bev_range := bev_range barrier_default |} semantics_small (1 # 2) = Returns sdf' /\
    forall b i j, (b < 1)%nat -> (i < 2)%nat -> (j < 3)%nat ->
      cell sdf' b 0 i j + ego_radius barrier_default
      == (cell sdf b 0 i j + ego_radius barrier_default) / 2.
Proof.
  apply (pixel_size_scales_field sigmoid_rational distance_transform_spec barrier_default
           semantics_small (1 # 2) 1 2 2 3).
  - reflexivity.
  - lia.
  - reflexivity.
  - reflexivity.
Defined.

Lemma edge_cell_constant (g : grid) (H W : nat) (c : Q) (i j : Z) :
  shape2 g H W = true -> (1 <= H)%nat -> (1 <= W)%nat ->
  (forall i' j', (i' < H)%nat -> (j' < W)%nat -> grid_cell g i' j' == c) ->
  edge_cell g i j == c.
Proof.
  intros Hs HH HW Hc. unfold edge_cell. rewrite (shape2_hd g H W Hs HH).
  apply shape2_iff in Hs. destruct Hs as [Hl _]. rewrite Hl.
  apply Hc; apply clamp_index_lt; assumption.
Qed.

(** X2, flat field: when every cell of the field holds the same value and
    [pixel_size <> 0], the gradient returned for every trajectory point is
    zero in both components; the replicated border adds no step at the
    edge of the grid. *)
Theorem constant_field_has_zero_gradient (self : SafetyBarrier) (sdf : tensor4)
        (trajs : list (list (Q * Q))) (c : Q) (B H W b n : nat) :
  shape4 sdf B 1 H W = true -> length trajs = B -> (1 <= H)%nat -> (1 <= W)%nat ->
  ~ pixel_size self == 0 ->
  (forall i j, (i < H)%nat -> (j < W)%nat -> cell sdf b 0 i j == c) ->
  (b < B)%nat -> (n < length (nth b trajs []))%nat ->
  exists h_val h_grad gx gy,
    get_gradients self sdf trajs = Returns (h_val, h_grad) /\
    nth n (nth b h_grad []) [] = [gx; gy] /\ gx == 0 /\ gy == 0.
Proof.
  intros Hs Ht HH HW _ Hc Hb Hn.
  destruct (get_gradients_returns self sdf trajs B H W Hs Ht HH) as (hv & hg & Hret & Hpt).
  destruct (Hpt b n Hb Hn) as [_ Hg]. cbv zeta in Hg.
  exists hv, hg. do 2 eexists. split; [exact Hret|]. split; [exact Hg|].
  assert (Hg2 : shape2 (nth 0 (nth b sdf []) []) H W = true).
  { apply shape4_iff in Hs. destruct Hs as [_ Hs]. specialize (Hs b Hb).
    apply shape3_iff in Hs. destruct Hs as [_ Hs]. apply Hs. lia. }
  pose proof (shape2_pad_replicate_grid _ H W Hg2 HH HW) as Hpad.
  assert (Hzero : forall weight,
             (forall i j, (i < H)%nat -> (j < W)%nat ->
                grid_cell (correlate3 (pad_replicate_grid (nth 0 (nth b sdf []) [])) weight) i j
                == 0) ->
             forall x y,
               bilinear_sample
                 (correlate3 (pad_replicate_grid (nth 0 (nth b sdf []) [])) weight) x y
               / pixel_size self == 0).
  { intros weight Hw x y.
    assert (Hb0 : 0 <= bilinear_sample
                         (correlate3 (pad_replicate_grid (nth 0 (nth b sdf []) [])) weight) x y
                  <= 0).
    { apply (bilinear_sample_bounds _ H W); try assumption.
      - apply shape2_correlate3. exact Hpad.
      - intros i j Hi Hj. rewrite (Hw i j Hi Hj). split; apply Qle_refl. }
    assert (Heq : bilinear_sample
                    (correlate3 (pad_replicate_grid (nth 0 (nth b sdf []) [])) weight) x y
                  == 0) by (apply Qle_antisym; tauto).
    rewrite Heq. unfold Qdiv. ring. }
  split; apply Hzero; intros i j Hi Hj.
  - rewrite (sobel_y_is_row_gradient _ H W) by assumption.
    unfold row_gradient. cbv zeta.
    rewrite !(edge_cell_constant _ H W c) by assumption. field.
  - rewrite (sobel_x_is_col_gradient _ H W) by assumption.
    unfold col_gradient. cbv zeta.
    rewrite !(edge_cell_constant _ H W c) by assumption. field.
Qed.

Lemma constant_field_has_zero_gradient_witness :
  exists h_val h_grad gx gy,
    get_gradients barrier_default sdf_flat trajs_small = Returns (h_val, h_grad) /\
    nth 1 (nth 0 h_grad []) [] = [gx; gy] /\ gx == 0 /\ gy == 0.
Proof.
  apply (constant_field_has_zero_gradient barrier_default sdf_flat trajs_small 7 1 2 3 0 1).
  - reflexivity.
  - reflexivity.
  - lia.
  - lia.
  - discriminate.
  - intros i j Hi Hj.
    destruct i as [|[|i]]; [| |lia]; (destruct j as [|[|[|j]]]; [| | |lia]); reflexivity.
  - lia.
  - simpl. lia.
Defined.

(** ** The rows of the result *)

Lemma map2_map_map {A B C D : Type} (f : B -> C -> D) (g : A -> B) (h : A -> C)
      (l : list A) :
  map2 f (map g l) (map h l) = map (fun x => f (g x) (h x)) l.
Proof.
  induction l as [|x l IH]; simpl; [reflexivity|]. rewrite IH. reflexivity.
Qed.

(** The sample of one grid at a trajectory point, and the entries
    [get_gradients] returns for the point. *)
Lemma get_gradients_rows (self : SafetyBarrier) (sdf : tensor4)
      (trajs : list (list (Q * Q))) (B H W : nat) :
  shape4 sdf B 1 H W = true -> length trajs = B -> (1 <= H)%nat ->
  exists h_val h_grad,
    get_gradients self sdf trajs = Returns (h_val, h_grad) /\
    length h_val = B /\ length h_grad = B /\
    forall b, (b < B)%nat ->
      let g := nth 0 (nth b sdf []) [] in
      let at_point (img : grid) (p : Q * Q) :=
        bilinear_sample img (fst (metric_to_grid_point self H W p))
                        (snd (metric_to_grid_point self H W p)) in
      nth b h_val [] = map (fun p => [at_point g p]) (nth b trajs []) /\
      nth b h_grad []
      = map (fun p =>
               [at_point (correlate3 (pad_replicate_grid g) sobel_y) p / pixel_size self;
                at_point (correlate3 (pad_replicate_grid g) sobel_x) p / pixel_size self])
            (nth b trajs []).
Proof.
  intros Hs Ht HH.
  pose proof (shape4_single_channel sdf B H W Hs) as H1.
  pose proof (single_channel_pad_replicate sdf H1) as H1p.
  pose proof Hs as Hs'. apply shape4_iff in Hs'. destruct Hs' as [HB Hs'].
  unfold get_gradients.
  rewrite !(conv2d_single_channel _ _ H1p). cbn [bind].
  rewrite grid_sample_returns by (rewrite length_grid_coords; lia). cbn [bind].
  rewrite grid_sample_returns
    by (rewrite length_grid_coords; unfold pad_replicate; rewrite !length_map; lia).
  cbn [bind].
  rewrite grid_sample_returns
    by (rewrite length_grid_coords; unfold pad_replicate; rewrite !length_map; lia).
  cbn [bind].
  assert (Hlc : forall H' W', length (metric_to_grid self trajs H' W') = length trajs)
    by (intros; unfold metric_to_grid; apply length_map).
  do 2 eexists. split; [reflexivity|].
  split.
  { unfold view_B_N_1. rewrite length_map, length_map2, length_map, Hlc. lia. }
  split.
  { rewrite length_map2, !length_map. unfold view_B_N_1.
    rewrite !length_map, !length_map2. unfold pad_replicate.
    rewrite !length_map, Hlc. lia. }
  intros b Hb. cbv zeta.
  destruct (shape4_height_width sdf B H W Hs ltac:(lia) HH) as [Hh Hw].
  rewrite Hh, Hw.
  assert (Hcb : nth b (metric_to_grid self trajs H W) []
                = map (metric_to_grid_point self H W) (nth b trajs [])).
  { unfold metric_to_grid. apply nth_map_in. lia. }
  assert (HC : length (nth b sdf []) = 1%nat).
  { specialize (Hs' b Hb). apply shape3_iff in Hs'. tauto. }
  split.
  - rewrite nth_view_sampled by (rewrite ?Hlc; lia).
    rewrite Hcb, map_map. reflexivity.
  - rewrite (nth_map2 (map2 (@app Q)) _ _ b [] [] [])
      by (rewrite !length_map; unfold view_B_N_1; rewrite length_map, length_map2;
          unfold pad_replicate; rewrite !length_map, Hlc; lia).
    rewrite !(nth_map_in (map (map (fun v => v / pixel_size self))) _ b [] [])
      by (unfold view_B_N_1; rewrite length_map, length_map2;
          unfold pad_replicate; rewrite !length_map, Hlc; lia).
    rewrite !nth_view_sampled
      by (try (unfold pad_replicate; rewrite !length_map); rewrite ?Hlc; try lia;
          rewrite (nth_conv_maps sdf _ B H W b Hs Hb); reflexivity).
    rewrite !(nth_conv_maps sdf _ B H W b Hs Hb). cbn [nth].
    rewrite Hcb, !map_map.
    rewrite map2_map_map. reflexivity.
Qed.

(** X3, shapes: for [sdf] of shape [B, 1, H, W] and [trajs] with [B] rows,
    [get_gradients] returns [h_val] and [h_grad] with [B] rows, row [b]
    holding one entry per point of [trajs[b]], of length 1 in [h_val] and
    of length 2 in [h_grad].  A row without points gives an empty row, not
    an error. *)
Theorem get_gradients_shapes (self : SafetyBarrier) (sdf : tensor4)
        (trajs : list (list (Q * Q))) (B H W : nat) :
  shape4 sdf B 1 H W = true -> length trajs = B -> (1 <= H)%nat -> (1 <= W)%nat ->
  exists h_val h_grad,
    get_gradients self sdf trajs = Returns (h_val, h_grad) /\
    length h_val = B /\ length h_grad = B /\
    forall b, (b < B)%nat ->
      length (nth b h_val []) = length (nth b trajs []) /\
      length (nth b h_grad []) = length (nth b trajs []) /\
      (nth b trajs [] = [] -> nth b h_val [] = [] /\ nth b h_grad [] = []) /\
      forall n, (n < length (nth b trajs []))%nat ->
        length (nth n (nth b h_val []) []) = 1%nat /\
        length (nth n (nth b h_grad []) []) = 2%nat.
Proof.
  intros Hs Ht HH _.
  destruct (get_gradients_rows self sdf trajs B H W Hs Ht HH)
    as (hv & hg & Hret & Hlv & Hlg & Hrows).
  exists hv, hg. split; [exact Hret|]. split; [exact Hlv|]. split; [exact Hlg|].
  intros b Hb. destruct (Hrows b Hb) as [Hv Hg]. cbv zeta in Hv, Hg.
  rewrite Hv, Hg, !length_map.
  split; [reflexivity|]. split; [reflexivity|].
  split.
  - intros Hnil. rewrite Hnil. split; reflexivity.
  - intros n Hn.
    rewrite (nth_map_in _ _ n (0, 0) []) by exact Hn.
    rewrite (nth_map_in _ _ n (0, 0) []) by exact Hn.
    split; reflexivity.
Qed.

Lemma get_gradients_shapes_witness :
  exists h_val h_grad,
    get_gradients barrier_default sdf_small trajs_small = Returns (h_val, h_grad) /\
    length h_val = 1%nat /\ length h_grad = 1%nat /\
    forall b, (b < 1)%nat ->
      length (nth b h_val []) = length (nth b trajs_small []) /\
      length (nth b h_grad []) = length (nth b trajs_small []) /\
      (nth b trajs_small [] = [] -> nth b h_val [] = [] /\ nth b h_grad [] = []) /\
      forall n, (n < length (nth b trajs_small []))%nat ->
        length (nth n (nth b h_val []) []) = 1%nat /\
        length (nth n (nth b h_grad []) []) = 2%nat.
Proof.
  apply (get_gradients_shapes barrier_default sdf_small trajs_small 1 2 3).
  - reflexivity.
  - reflexivity.
  - lia.
  - lia.
Defined.

(** No trajectory point ([N = 0]): both results have one empty row. *)
Example get_gradients_no_point :
  get_gradients barrier_default sdf_small [[]] = Returns ([[]], [[]]).
Proof. reflexivity. Qed.

(** ** Points at cell centres *)

Lemma clip_at_index (x : Q) (size k : nat) :
  (k < size)%nat -> x == inject_Z (Z.of_nat k) ->
  clip_coordinates x size == inject_Z (Z.of_nat k).
Proof.
  intros Hk Hx. unfold clip_coordinates. rewrite Hx.
  rewrite Q.max_l by (change 0 with (inject_Z 0); rewrite <- Zle_Qle; lia).
  apply Q.min_r. rewrite <- Zle_Qle. lia.
Qed.

(** Index -> normalized coordinate -> index: the normalization of
    [metric_to_grid] followed by the sampler's own conversion gives the
    index back. *)
Lemma normalized_index (v : Q) (size k : nat) :
  (2 <= size)%nat -> (k < size)%nat -> v == inject_Z (Z.of_nat k) ->
  clip_coordinates
    (unnormalize (clamp ((v / inject_Z (Z.of_nat size - 1)) * 2 - 1) (-1) 1) size) size
  == inject_Z (Z.of_nat k).
Proof.
  intros Hs Hk Hv.
  assert (Hd : 0 < inject_Z (Z.of_nat size - 1)).
  { change 0 with (inject_Z 0). rewrite <- Zlt_Qlt. lia. }
  assert (Hk0 : 0 <= v).
  { rewrite Hv. change 0 with (inject_Z 0). rewrite <- Zle_Qle. lia. }
  assert (Hk1 : v <= inject_Z (Z.of_nat size - 1)).
  { rewrite Hv. rewrite <- Zle_Qle. lia. }
  assert (Hq0 : 0 <= v / inject_Z (Z.of_nat size - 1)).
  { apply Qle_shift_div_l; [exact Hd|]. lra. }
  assert (Hq1 : v / inject_Z (Z.of_nat size - 1) <= 1).
  { apply Qle_shift_div_r; [exact Hd|]. lra. }
  rewrite clamp_inside by (split; lra).
  apply clip_at_index; [exact Hk|].
  unfold unnormalize. rewrite <- Hv. field. lra.
Qed.

(** A trajectory point at the metric centre of cell [(r, c)] samples that
    cell of any [H x W] grid. *)
Lemma sample_at_cell_centre (self : SafetyBarrier) (g : grid) (H W r c : nat) (p : Q * Q) :
  shape2 g H W = true -> (2 <= H)%nat -> (2 <= W)%nat ->
  ~ pixel_size self == 0 -> (r < H)%nat -> (c < W)%nat ->
  fst p == inject_Z (Z.of_nat r) * pixel_size self ->
  snd p == (inject_Z (Z.of_nat c) - inject_Z (Z.of_nat W) / 2) * pixel_size self ->
  bilinear_sample g (fst (metric_to_grid_point self H W p))
                  (snd (metric_to_grid_point self H W p))
  == grid_cell g r c.
Proof.
  intros Hs HH HW Hp Hr Hc Hf Hl.
  apply (bilinear_sample_at_cell g H W r c); try assumption.
  - unfold metric_to_grid_point. cbn [fst snd].
    apply normalized_index; try assumption. rewrite Hl. field. exact Hp.
  - unfold metric_to_grid_point. cbn [fst snd].
    apply normalized_index; try assumption. rewrite Hf. field. exact Hp.
Qed.

Lemma sdf_grid_shape (sdf : tensor4) (B H W b : nat) :
  shape4 sdf B 1 H W = true -> (b < B)%nat ->
  shape2 (nth 0 (nth b sdf []) []) H W = true.
Proof.
  intros Hs Hb. apply shape4_iff in Hs. destruct Hs as [_ Hs]. specialize (Hs b Hb).
  apply shape3_iff in Hs. destruct Hs as [_ Hs]. apply Hs. lia.
Qed.

Lemma shape2_gradient_map (g weight : grid) (H W : nat) :
  shape2 g H W = true -> (1 <= H)%nat -> (1 <= W)%nat ->
  shape2 (correlate3 (pad_replicate_grid g) weight) H W = true.
Proof.
  intros Hs HH HW. apply shape2_correlate3, shape2_pad_replicate_grid; assumption.
Qed.

(** X4, cell centres: a trajectory point at the metric centre of cell
    [(r, c)], that is [forward = r * pixel_size] and
    [lateral = (c - W / 2) * pixel_size], gets the value of that cell of
    the field, and as gradient the two Sobel estimates of that cell
    divided by [pixel_size]; metric offsets, normalized coordinates and
    cell indices convert back and forth without loss. *)
Theorem cell_centre_round_trip (self : SafetyBarrier) (sdf : tensor4)
        (trajs : list (list (Q * Q))) (B H W b n r c : nat) :
  shape4 sdf B 1 H W = true -> length trajs = B -> (2 <= H)%nat -> (2 <= W)%nat ->
  ~ pixel_size self == 0 ->
  (b < B)%nat -> (n < length (nth b trajs []))%nat -> (r < H)%nat -> (c < W)%nat ->
  fst (nth n (nth b trajs []) (0, 0)) == inject_Z (Z.of_nat r) * pixel_size self ->
  snd (nth n (nth b trajs []) (0, 0))
  == (inject_Z (Z.of_nat c) - inject_Z (Z.of_nat W) / 2) * pixel_size self ->
  exists h_val h_grad v gf gl,
    get_gradients self sdf trajs = Returns (h_val, h_grad) /\
    nth n (nth b h_val []) [] = [v] /\
    nth n (nth b h_grad []) [] = [gf; gl] /\
    v == cell sdf b 0 r c /\
    gf == row_gradient (nth 0 (nth b sdf []) []) r c / pixel_size self /\
    gl == col_gradient (nth 0 (nth b sdf []) []) r c / pixel_size self.
Proof.
  intros Hs Ht HH HW Hp Hb Hn Hr Hc Hf Hl.
  destruct (get_gradients_returns self sdf trajs B H W Hs Ht ltac:(lia))
    as (hv & hg & Hret & Hpt).
  destruct (Hpt b n Hb Hn) as [Hv Hg]. cbv zeta in Hv, Hg.
  exists hv, hg. do 3 eexists. split; [exact Hret|]. split; [exact Hv|]. split; [exact Hg|].
  pose proof (sdf_grid_shape sdf B H W b Hs Hb) as Hg2.
  split; [|split].
  - apply (sample_at_cell_centre self _ H W r c); assumption.
  - rewrite (sample_at_cell_centre self _ H W r c); try assumption;
      [|apply shape2_gradient_map; try assumption; lia].
    rewrite (sobel_y_is_row_gradient _ H W) by assumption. reflexivity.
  - rewrite (sample_at_cell_centre self _ H W r c); try assumption;
      [|apply shape2_gradient_map; try assumption; lia].
    rewrite (sobel_x_is_col_gradient _ H W) by assumption. reflexivity.
Qed.

Lemma cell_centre_round_trip_witness :
  exists h_val h_grad v gf gl,
    get_gradients barrier_default sdf_small trajs_centre = Returns (h_val, h_grad) /\
    nth 0 (nth 0 h_val []) [] = [v] /\
    nth 0 (nth 0 h_grad []) [] = [gf; gl] /\
    v == cell sdf_small 0 0 1 2 /\
    gf == row_gradient (nth 0 (nth 0 sdf_small []) []) 1 2 / pixel_size barrier_default /\
    gl == col_gradient (nth 0 (nth 0 sdf_small []) []) 1 2 / pixel_size barrier_default.
Proof.
  apply (cell_centre_round_trip barrier_default sdf_small trajs_centre 1 2 3 0 0 1 2).
  - reflexivity.
  - reflexivity.
  - lia.
  - lia.
  - discriminate.
  - lia.
  - simpl. lia.
  - lia.
  - lia.
  - reflexivity.
  - reflexivity.
Defined.

Example get_gradients_centre :
  exists h_val h_grad,
    get_gradients barrier_default sdf_small trajs_centre = Returns (h_val, h_grad) /\
    map (map (map Qred)) h_val = [[[9]]].
Proof. do 2 eexists. split; [vm_compute; reflexivity | reflexivity]. Qed.

(** ** Points outside the grid *)

Lemma bilinear_sample_coord_eq (g : grid) (x x' y y' : Q) :
  x == x' -> y == y' -> bilinear_sample g x y == bilinear_sample g x' y'.
Proof.
  intros Hx Hy. unfold bilinear_sample. cbv zeta.
  assert (Hcx : clip_coordinates (unnormalize x (length (hd [] g))) (length (hd [] g))
                == clip_coordinates (unnormalize x' (length (hd [] g))) (length (hd [] g))).
  { unfold clip_coordinates, unnormalize. rewrite Hx. reflexivity. }
  assert (Hcy : clip_coordinates (unnormalize y (length g)) (length g)
                == clip_coordinates (unnormalize y' (length g)) (length g)).
  { unfold clip_coordinates, unnormalize. rewrite Hy. reflexivity. }
  rewrite (Qfloor_comp _ _ Hcx), (Qfloor_comp _ _ Hcy).
  rewrite Hcx, Hcy. reflexivity.
Qed.

Lemma clamp_compat (v v' lo hi : Q) : v == v' -> clamp v lo hi == clamp v' lo hi.
Proof. intros Hv. unfold clamp. rewrite Hv. reflexivity. Qed.

(** Clamping in metric units, then normalizing, is normalizing, then
    clamping to [-1, 1], when the normalization [n] is increasing and
    sends [lo] to -1 and [hi] to 1. *)
Lemma clamp_norm_commute (n : Q -> Q) (A C lo hi v : Q) :
  0 < A -> (forall u, n u == A * u + C) ->
  A * lo + C == -1 -> A * hi + C == 1 ->
  clamp (n (clamp v lo hi)) (-1) 1 == clamp (n v) (-1) 1.
Proof.
  intros HA Hn Hlo Hhi.
  assert (Hlh : lo <= hi) by nra.
  assert (H11 : -1 <= 1) by discriminate.
  destruct (Qlt_le_dec v lo) as [Hv|Hv].
  - rewrite (clamp_below v lo hi Hlh Hv).
    rewrite (clamp_below (n v) (-1) 1 H11) by (rewrite Hn; nra).
    rewrite clamp_inside by (rewrite Hn; split; lra).
    rewrite Hn. exact Hlo.
  - destruct (Qlt_le_dec hi v) as [Hv'|Hv'].
    + rewrite (clamp_above v lo hi Hlh Hv').
      rewrite (clamp_above (n v) (-1) 1 H11) by (rewrite Hn; nra).
      rewrite clamp_inside by (rewrite Hn; split; lra).
      rewrite Hn. exact Hhi.
    + rewrite (clamp_inside v lo hi) by (split; assumption). reflexivity.
Qed.

(** The grid coordinate of a point is the grid coordinate of the nearest
    point of the grid's extent: forward in [0, (H - 1) * pixel_size],
    lateral in [-(W / 2) * pixel_size, (W - 1 - W / 2) * pixel_size]. *)
Lemma metric_to_grid_point_clamped (self : SafetyBarrier) (H W : nat) (p q : Q * Q) :
  0 < pixel_size self -> (2 <= H)%nat -> (2 <= W)%nat ->
  fst q == clamp (fst p) 0 (inject_Z (Z.of_nat H - 1) * pixel_size self) ->
  snd q == clamp (snd p) (- (inject_Z (Z.of_nat W) / 2) * pixel_size self)
             ((inject_Z (Z.of_nat W - 1) - inject_Z (Z.of_nat W) / 2) * pixel_size self) ->
  fst (metric_to_grid_point self H W q) == fst (metric_to_grid_point self H W p) /\
  snd (metric_to_grid_point self H W q) == snd (metric_to_grid_point self H W p).
Proof.
  intros Hp HH HW Hf Hl.
  assert (HdH : 0 < inject_Z (Z.of_nat H - 1)).
  { change 0 with (inject_Z 0). rewrite <- Zlt_Qlt. lia. }
  assert (HdW : 0 < inject_Z (Z.of_nat W - 1)).
  { change 0 with (inject_Z 0). rewrite <- Zlt_Qlt. lia. }
  unfold metric_to_grid_point. cbn [fst snd]. split.
  - rewrite (clamp_compat _ _ _ _
               (ltac:(rewrite Hl; reflexivity) :
                  (snd q / pixel_size self + inject_Z (Z.of_nat W) / 2)
                  / inject_Z (Z.of_nat W - 1) * 2 - 1
                  == (clamp (snd p) (- (inject_Z (Z.of_nat W) / 2) * pixel_size self)
                        ((inject_Z (Z.of_nat W - 1) - inject_Z (Z.of_nat W) / 2)
                         * pixel_size self)
                      / pixel_size self + inject_Z (Z.of_nat W) / 2)
                     / inject_Z (Z.of_nat W - 1) * 2 - 1)).
    apply (clamp_norm_commute
             (fun u => (u / pixel_size self + inject_Z (Z.of_nat W) / 2)
                       / inject_Z (Z.of_nat W - 1) * 2 - 1)
             (2 / (pixel_size self * inject_Z (Z.of_nat W - 1)))
             (inject_Z (Z.of_nat W) / inject_Z (Z.of_nat W - 1) - 1)).
    + apply Qlt_shift_div_l; nra.
    + intros u. field. split; lra.
    + field. split; lra.
    + field. split; lra.
  - rewrite (clamp_compat _ _ _ _
               (ltac:(rewrite Hf; reflexivity) :
                  fst q / pixel_size self / inject_Z (Z.of_nat H - 1) * 2 - 1
                  == clamp (fst p) 0 (inject_Z (Z.of_nat H - 1) * pixel_size self)
                     / pixel_size self / inject_Z (Z.of_nat H - 1) * 2 - 1)).
    apply (clamp_norm_commute
             (fun u => u / pixel_size self / inject_Z (Z.of_nat H - 1) * 2 - 1)
             (2 / (pixel_size self * inject_Z (Z.of_nat H - 1)))
             (-1)).
    + apply Qlt_shift_div_l; nra.
    + intros u. field. split; lra.
    + field. split; lra.
    + field. split; lra.
Qed.

(** X5, clamping: with a positive [pixel_size], a trajectory point gets the
    same value and the same gradient as the nearest point of the grid's
    extent, whatever its distance from the grid. *)
Theorem outside_point_samples_nearest_edge (self : SafetyBarrier) (sdf : tensor4)
        (trajs trajs' : list (list (Q * Q))) (B H W b n : nat) :
  shape4 sdf B 1 H W = true -> length trajs = B -> length trajs' = B ->
  (2 <= H)%nat -> (2 <= W)%nat -> 0 < pixel_size self ->
  (b < B)%nat -> (n < length (nth b trajs []))%nat -> (n < length (nth b trajs' []))%nat ->
  fst (nth n (nth b trajs' []) (0, 0))
  == clamp (fst (nth n (nth b trajs []) (0, 0))) 0
       (inject_Z (Z.of_nat H - 1) * pixel_size self) ->
  snd (nth n (nth b trajs' []) (0, 0))
  == clamp (snd (nth n (nth b trajs []) (0, 0)))
       (- (inject_Z (Z.of_nat W) / 2) * pixel_size self)
       ((inject_Z (Z.of_nat W - 1) - inject_Z (Z.of_nat W) / 2) * pixel_size self) ->
  exists h_val h_grad h_val' h_grad' v gf gl v' gf' gl',
    get_gradients self sdf trajs = Returns (h_val, h_grad) /\
    get_gradients self sdf trajs' = Returns (h_val', h_grad') /\
    nth n (nth b h_val []) [] = [v] /\ nth n (nth b h_grad []) [] = [gf; gl] /\
    nth n (nth b h_val' []) [] = [v'] /\ nth n (nth b h_grad' []) [] = [gf'; gl'] /\
    v == v' /\ gf == gf' /\ gl == gl'.
Proof.
  intros Hs Ht Ht' HH HW Hp Hb Hn Hn' Hf Hl.
  destruct (get_gradients_returns self sdf trajs B H W Hs Ht ltac:(lia))
    as (hv & hg & Hret & Hpt).
  destruct (get_gradients_returns self sdf trajs' B H W Hs Ht' ltac:(lia))
    as (hv' & hg' & Hret' & Hpt').
  destruct (Hpt b n Hb Hn) as [Hv Hg]. destruct (Hpt' b n Hb Hn') as [Hv' Hg'].
  cbv zeta in Hv, Hg, Hv', Hg'.
  exists hv, hg, hv', hg'. do 6 eexists.
  split; [exact Hret|]. split; [exact Hret'|].
  split; [exact Hv|]. split; [exact Hg|]. split; [exact Hv'|]. split; [exact Hg'|].
  destruct (metric_to_grid_point_clamped self H W _ _ Hp HH HW Hf Hl) as [Hx Hy].
  split; [|split].
  - symmetry. apply bilinear_sample_coord_eq; assumption.
  - rewrite (bilinear_sample_coord_eq _ _ _ _ _ Hx Hy). reflexivity.
  - rewrite (bilinear_sample_coord_eq _ _ _ _ _ Hx Hy). reflexivity.
Qed.

Lemma outside_point_samples_nearest_edge_witness :
  exists h_val h_grad h_val' h_grad' v gf gl v' gf' gl',
    get_gradients barrier_default sdf_small trajs_outside = Returns (h_val, h_grad) /\
    get_gradients barrier_default sdf_small trajs_edge = Returns (h_val', h_grad') /\
    nth 0 (nth 0 h_val []) [] = [v] /\ nth 0 (nth 0 h_grad []) [] = [gf; gl] /\
    nth 0 (nth 0 h_val' []) [] = [v'] /\ nth 0 (nth 0 h_grad' []) [] = [gf'; gl'] /\
    v == v' /\ gf == gf' /\ gl == gl'.
Proof.
  apply (outside_point_samples_nearest_edge barrier_default sdf_small
           trajs_outside trajs_edge 1 2 3 0 0).
  - reflexivity.
  - reflexivity.
  - reflexivity.
  - lia.
  - lia.
  - reflexivity.
  - lia.
  - simpl. lia.
  - simpl. lia.
  - reflexivity.
  - reflexivity.
Defined.

(** ** Batch elements are independent *)

Lemma shape4_app (t u : tensor4) (B1 B2 C H W : nat) :
  shape4 t B1 C H W = true -> shape4 u B2 C H W = true ->
  shape4 (t ++ u) (B1 + B2) C H W = true.
Proof.
  unfold shape4. rewrite !andb_true_iff, !Nat.eqb_eq.
  intros [Ht Hft] [Hu Hfu]. rewrite length_app, forallb_app, Hft, Hfu. split; [lia | reflexivity].
Qed.

Lemma rows_of_app {A : Type} (l1 l2 l : list (list A)) :
  length l = (length l1 + length l2)%nat ->
  (forall b, (b < length l1)%nat -> nth b l [] = nth b l1 []) ->
  (forall b, (b < length l2)%nat -> nth (length l1 + b) l [] = nth b l2 []) ->
  l = l1 ++ l2.
Proof.
  intros Hl H1 H2. apply (nth_ext _ _ [] []); [rewrite length_app; exact Hl|].
  intros b Hb. destruct (Nat.lt_ge_cases b (length l1)) as [Hlt|Hge].
  - rewrite app_nth1 by exact Hlt. apply H1, Hlt.
  - rewrite app_nth2 by exact Hge.
    replace b with (length l1 + (b - length l1))%nat at 1 by lia.
    apply H2. lia.
Qed.

(** X6, batch independence: the result for a batch is the results of its
    parts, one after the other: no batch element's value or gradient
    depends on another element's field or points. *)
Theorem get_gradients_batch_independent (self : SafetyBarrier) (sdf1 sdf2 : tensor4)
        (trajs1 trajs2 : list (list (Q * Q))) (B1 B2 H W : nat) :
  shape4 sdf1 B1 1 H W = true -> shape4 sdf2 B2 1 H W = true ->
  length trajs1 = B1 -> length trajs2 = B2 -> (1 <= H)%nat -> (1 <= W)%nat ->
  exists h_val1 h_grad1 h_val2 h_grad2,
    get_gradients self sdf1 trajs1 = Returns (h_val1, h_grad1) /\
    get_gradients self sdf2 trajs2 = Returns (h_val2, h_grad2) /\
    get_gradients self (sdf1 ++ sdf2) (trajs1 ++ trajs2)
    = Returns (h_val1 ++ h_val2, h_grad1 ++ h_grad2).
Proof.
  intros Hs1 Hs2 Ht1 Ht2 HH _.
  destruct (get_gradients_rows self sdf1 trajs1 B1 H W Hs1 Ht1 HH)
    as (hv1 & hg1 & Hret1 & Hlv1 & Hlg1 & Hrows1).
  destruct (get_gradients_rows self sdf2 trajs2 B2 H W Hs2 Ht2 HH)
    as (hv2 & hg2 & Hret2 & Hlv2 & Hlg2 & Hrows2).
  destruct (get_gradients_rows self (sdf1 ++ sdf2) (trajs1 ++ trajs2) (B1 + B2) H W
              (shape4_app _ _ _ _ _ _ _ Hs1 Hs2)
              ltac:(rewrite length_app; lia) HH)
    as (hv & hg & Hret & Hlv & Hlg & Hrows).
  exists hv1, hg1, hv2, hg2. split; [exact Hret1|]. split; [exact Hret2|].
  rewrite Hret.
  assert (HB1 : length sdf1 = B1) by (apply shape4_iff in Hs1; tauto).
  assert (Hv : hv = hv1 ++ hv2).
  { apply rows_of_app; [lia | |].
    - intros b Hb. destruct (Hrows b ltac:(lia)) as [Hr _].
      destruct (Hrows1 b ltac:(lia)) as [Hr1 _]. cbv zeta in Hr, Hr1.
      rewrite Hr, Hr1. rewrite !app_nth1 by lia. reflexivity.
    - intros b Hb. destruct (Hrows (length hv1 + b)%nat ltac:(lia)) as [Hr _].
      destruct (Hrows2 b ltac:(lia)) as [Hr2 _]. cbv zeta in Hr, Hr2.
      rewrite Hr, Hr2. rewrite !app_nth2 by lia.
      replace (length hv1 + b - length sdf1)%nat with b by lia.
      replace (length hv1 + b - length trajs1)%nat with b by lia.
      reflexivity. }
  assert (Hg : hg = hg1 ++ hg2).
  { apply rows_of_app; [lia | |].
    - intros b Hb. destruct (Hrows b ltac:(lia)) as [_ Hr].
      destruct (Hrows1 b ltac:(lia)) as [_ Hr1]. cbv zeta in Hr, Hr1.
      rewrite Hr, Hr1. rewrite !app_nth1 by lia. reflexivity.
    - intros b Hb. destruct (Hrows (length hg1 + b)%nat ltac:(lia)) as [_ Hr].
      destruct (Hrows2 b ltac:(lia)) as [_ Hr2]. cbv zeta in Hr, Hr2.
      rewrite Hr, Hr2. rewrite !app_nth2 by lia.
      replace (length hg1 + b - length sdf1)%nat with b by lia.
      replace (length hg1 + b - length trajs1)%nat with b by lia.
      reflexivity. }
  rewrite Hv, Hg. reflexivity.
Qed.

Lemma get_gradients_batch_independent_witness :
  exists h_val1 h_grad1 h_val2 h_grad2,
    get_gradients barrier_default sdf_small trajs_small = Returns (h_val1, h_grad1) /\
    get_gradients barrier_default sdf_flat trajs_small = Returns (h_val2, h_grad2) /\
    get_gradients barrier_default (sdf_small ++ sdf_flat) (trajs_small ++ trajs_small)
    = Returns (h_val1 ++ h_val2, h_grad1 ++ h_grad2).
Proof.
  apply (get_gradients_batch_independent barrier_default sdf_small sdf_flat
           trajs_small trajs_small 1 1 2 3).
  - reflexivity.
  - reflexivity.
  - reflexivity.
  - reflexivity.
  - lia.
  - lia.
Defined.

(** ** Fields that rise at a constant rate *)

Lemma edge_cell_affine (g : grid) (H W : nat) (a b c : Q) (i j : Z) :
  shape2 g H W = true -> (1 <= H)%nat -> (1 <= W)%nat ->
  (forall i' j', (i' < H)%nat -> (j' < W)%nat ->
     grid_cell g i' j' == a * inject_Z (Z.of_nat i') + b * inject_Z (Z.of_nat j') + c) ->
  edge_cell g i j
  == a * inject_Z (Z.of_nat (clamp_index i H)) + b * inject_Z (Z.of_nat (clamp_index j W)) + c.
Proof.
  intros Hs HH HW Ha. unfold edge_cell. rewrite (shape2_hd g H W Hs HH).
  apply shape2_iff in Hs. destruct Hs as [Hl _]. rewrite Hl.
  apply Ha; apply clamp_index_lt; assumption.
Qed.

Lemma clamp_index_of_nat (k n : nat) (d : Z) :
  (0 <= Z.of_nat k + d <= Z.of_nat n - 1)%Z ->
  inject_Z (Z.of_nat (clamp_index (Z.of_nat k + d) n)) == inject_Z (Z.of_nat k) + inject_Z d.
Proof.
  intros Hr. unfold clamp_index. rewrite <- inject_Z_plus.
  replace (Z.of_nat (Z.to_nat (Z.max 0 (Z.min (Z.of_nat k + d) (Z.of_nat n - 1)))))
    with (Z.of_nat k + d)%Z by lia.
  reflexivity.
Qed.

Lemma clamp_index_low (k n : nat) :
  k = 0%nat -> inject_Z (Z.of_nat (clamp_index (Z.of_nat k - 1) n)) == inject_Z (Z.of_nat k).
Proof.
  intros ->. unfold clamp_index.
  replace (Z.of_nat (Z.to_nat (Z.max 0 (Z.min (Z.of_nat 0 - 1) (Z.of_nat n - 1))))) with 0%Z by lia.
  reflexivity.
Qed.

Lemma clamp_index_high (k n : nat) :
  (k + 1 = n)%nat ->
  inject_Z (Z.of_nat (clamp_index (Z.of_nat k + 1) n)) == inject_Z (Z.of_nat k).
Proof.
  intros Hk. unfold clamp_index.
  replace (Z.of_nat (Z.to_nat (Z.max 0 (Z.min (Z.of_nat k + 1) (Z.of_nat n - 1)))))
    with (Z.of_nat k) by lia.
  reflexivity.
Qed.

(** The row-axis estimate of a field of slope [a] per row: [a] between
    the first and the last row, [a / 2] on these two rows, where one of the
    two neighbouring rows is the replicated row itself. *)
Lemma row_gradient_affine (g : grid) (H W r c : nat) (a b c0 : Q) :
  shape2 g H W = true -> (2 <= H)%nat -> (r < H)%nat -> (c < W)%nat ->
  (forall i j, (i < H)%nat -> (j < W)%nat ->
     grid_cell g i j == a * inject_Z (Z.of_nat i) + b * inject_Z (Z.of_nat j) + c0) ->
  ((1 <= r)%nat /\ (r + 1 < H)%nat -> row_gradient g r c == a) /\
  (r = 0%nat \/ (r + 1 = H)%nat -> row_gradient g r c == a / 2).
Proof.
  intros Hs HH Hr Hc Ha. unfold row_gradient. cbv zeta.
  rewrite !(edge_cell_affine g H W a b c0) by (try assumption; lia).
  split.
  - intros [Hr1 Hr2].
    change (Z.of_nat r - 1)%Z with (Z.of_nat r + -1)%Z.
    rewrite !(clamp_index_of_nat r H) by lia.
    change (inject_Z (-1)) with (-1). change (inject_Z 1) with 1. field.
  - intros [Hr0|HrH].
    + rewrite !(clamp_index_low r H Hr0).
      rewrite !(clamp_index_of_nat r H 1) by lia.
      change (inject_Z 1) with 1. field.
    + rewrite !(clamp_index_high r H HrH).
      change (Z.of_nat r - 1)%Z with (Z.of_nat r + -1)%Z.
      rewrite !(clamp_index_of_nat r H (-1)) by lia.
      change (inject_Z (-1)) with (-1). field.
Qed.

Lemma col_gradient_affine (g : grid) (H W r c : nat) (a b c0 : Q) :
  shape2 g H W = true -> (2 <= W)%nat -> (r < H)%nat -> (c < W)%nat ->
  (forall i j, (i < H)%nat -> (j < W)%nat ->
     grid_cell g i j == a * inject_Z (Z.of_nat i) + b * inject_Z (Z.of_nat j) + c0) ->
  ((1 <= c)%nat /\ (c + 1 < W)%nat -> col_gradient g r c == b) /\
  (c = 0%nat \/ (c + 1 = W)%nat -> col_gradient g r c == b / 2).
Proof.
  intros Hs HW Hr Hc Ha. unfold col_gradient. cbv zeta.
  rewrite !(edge_cell_affine g H W a b c0) by (try assumption; lia).
  split.
  - intros [Hc1 Hc2].
    change (Z.of_nat c - 1)%Z with (Z.of_nat c + -1)%Z.
    rewrite !(clamp_index_of_nat c W) by lia.
    change (inject_Z (-1)) with (-1). change (inject_Z 1) with 1. field.
  - intros [Hc0|HcW].
    + rewrite !(clamp_index_low c W Hc0).
      rewrite !(clamp_index_of_nat c W 1) by lia.
      change (inject_Z 1) with 1. field.
    + rewrite !(clamp_index_high c W HcW).
      change (Z.of_nat c - 1)%Z with (Z.of_nat c + -1)%Z.
      rewrite !(clamp_index_of_nat c W (-1)) by lia.
      change (inject_Z (-1)) with (-1). field.
Qed.

(** X7, constant slope: on a field that rises by [a] per row and [b0] per
    column, a trajectory point at the centre of cell [(r, c)] gets the
    forward gradient [a / pixel_size] when [r] is neither the first nor
    the last row, and half of it on the first row (the ego row) and on the
    last row; the lateral gradient is [b0 / pixel_size] between the first
    and the last column and half of it on these two columns. *)
Theorem gradient_of_affine_field (self : SafetyBarrier) (sdf : tensor4)
        (trajs : list (list (Q * Q))) (B H W b n r c : nat) (a b0 c0 : Q) :
  shape4 sdf B 1 H W = true -> length trajs = B -> (2 <= H)%nat -> (2 <= W)%nat ->
  ~ pixel_size self == 0 ->
  (b < B)%nat -> (n < length (nth b trajs []))%nat -> (r < H)%nat -> (c < W)%nat ->
  fst (nth n (nth b trajs []) (0, 0)) == inject_Z (Z.of_nat r) * pixel_size self ->
  snd (nth n (nth b trajs []) (0, 0))
  == (inject_Z (Z.of_nat c) - inject_Z (Z.of_nat W) / 2) * pixel_size self ->
  (forall i j, (i < H)%nat -> (j < W)%nat ->
     cell sdf b 0 i j == a * inject_Z (Z.of_nat i) + b0 * inject_Z (Z.of_nat j) + c0) ->
  exists h_val h_grad gf gl,
    get_gradients self sdf trajs = Returns (h_val, h_grad) /\
    nth n (nth b h_grad []) [] = [gf; gl] /\
    ((1 <= r)%nat /\ (r + 1 < H)%nat -> gf == a / pixel_size self) /\
    (r = 0%nat \/ (r + 1 = H)%nat -> gf == a / 2 / pixel_size self) /\
    ((1 <= c)%nat /\ (c + 1 < W)%nat -> gl == b0 / pixel_size self) /\
    (c = 0%nat \/ (c + 1 = W)%nat -> gl == b0 / 2 / pixel_size self).
Proof.
  intros Hs Ht HH HW Hp Hb Hn Hr Hc Hf Hl Ha.
  destruct (get_gradients_returns self sdf trajs B H W Hs Ht ltac:(lia))
    as (hv & hg & Hret & Hpt).
  destruct (Hpt b n Hb Hn) as [_ Hg]. cbv zeta in Hg.
  exists hv, hg. do 2 eexists. split; [exact Hret|]. split; [exact Hg|].
  pose proof (sdf_grid_shape sdf B H W b Hs Hb) as Hg2.
  destruct (row_gradient_affine _ H W r c a b0 c0 Hg2 HH Hr Hc Ha) as [Hri Hrb].
  destruct (col_gradient_affine _ H W r c a b0 c0 Hg2 HW Hr Hc Ha) as [Hci Hcb].
  assert (Hgf : bilinear_sample
                  (correlate3 (pad_replicate_grid (nth 0 (nth b sdf []) [])) sobel_y)
                  (fst (metric_to_grid_point self H W (nth n (nth b trajs []) (0, 0))))
                  (snd (metric_to_grid_point self H W (nth n (nth b trajs []) (0, 0))))
                == row_gradient (nth 0 (nth b sdf []) []) r c).
  { rewrite (sample_at_cell_centre self _ H W r c); try assumption;
      [|apply shape2_gradient_map; try assumption; lia].
    apply (sobel_y_is_row_gradient _ H W); assumption. }
  assert (Hgl : bilinear_sample
                  (correlate3 (pad_replicate_grid (nth 0 (nth b sdf []) [])) sobel_x)
                  (fst (metric_to_grid_point self H W (nth n (nth b trajs []) (0, 0))))
                  (snd (metric_to_grid_point self H W (nth n (nth b trajs []) (0, 0))))
                == col_gradient (nth 0 (nth b sdf []) []) r c).
  { rewrite (sample_at_cell_centre self _ H W r c); try assumption;
      [|apply shape2_gradient_map; try assumption; lia].
    apply (sobel_x_is_col_gradient _ H W); assumption. }
  rewrite Hgf, Hgl.
  split; [|split; [|split]].
  - intros Hin. rewrite (Hri Hin). reflexivity.
  - intros Hbd. rewrite (Hrb Hbd). reflexivity.
  - intros Hin. rewrite (Hci Hin). reflexivity.
  - intros Hbd. rewrite (Hcb Hbd). reflexivity.
Qed.

Lemma gradient_of_affine_field_witness :
  exists h_val h_grad gf gl,
    get_gradients barrier_default sdf_affine trajs_first_row = Returns (h_val, h_grad) /\
    nth 0 (nth 0 h_grad []) [] = [gf; gl] /\
    ((1 <= 0)%nat /\ (0 + 1 < 3)%nat -> gf == 2 / pixel_size barrier_default) /\
    (0%nat = 0%nat \/ (0 + 1 = 3)%nat -> gf == 2 / 2 / pixel_size barrier_default) /\
    ((1 <= 1)%nat /\ (1 + 1 < 3)%nat -> gl == 1 / pixel_size barrier_default) /\
    (1%nat = 0%nat \/ (1 + 1 = 3)%nat -> gl == 1 / 2 / pixel_size barrier_default).
Proof.
  apply (gradient_of_affine_field barrier_default sdf_affine trajs_first_row
           1 3 3 0 0 0 1 2 1 0).
  - reflexivity.
  - reflexivity.
  - lia.
  - lia.
  - discriminate.
  - lia.
  - simpl. lia.
  - lia.
  - lia.
  - reflexivity.
  - reflexivity.
  - intros i j Hi Hj.
    destruct i as [|[|[|i]]]; [| | |lia];
      (destruct j as [|[|[|j]]]; [| | |lia]); reflexivity.
Defined.

(** On [sdf_affine] the field rises by 2 per row, that is 8 per meter; the
    forward gradient returned on the ego row is 4. *)
Example get_gradients_first_row :
  exists h_val h_grad,
    get_gradients barrier_default sdf_affine trajs_first_row = Returns (h_val, h_grad) /\
    map (map (map Qred)) h_grad = [[[4; 4]]].
Proof. do 2 eexists. split; [vm_compute; reflexivity | reflexivity]. Qed.

(** ** The size of the gradient *)

Lemma edge_cell_bounds (g : grid) (H W : nat) (lo hi : Q) (i j : Z) :
  shape2 g H W = true -> (1 <= H)%nat -> (1 <= W)%nat ->
  (forall i' j', (i' < H)%nat -> (j' < W)%nat -> lo <= grid_cell g i' j' <= hi) ->
  lo <= edge_cell g i j <= hi.
Proof.
  intros Hs HH HW Hb. unfold edge_cell. rewrite (shape2_hd g H W Hs HH).
  apply shape2_iff in Hs. destruct Hs as [Hl _]. rewrite Hl.
  apply Hb; apply clamp_index_lt; assumption.
Qed.

(** Each Sobel estimate is at most half the spread of the field. *)
Lemma sobel_maps_bounds (g : grid) (H W i j : nat) (lo hi : Q) :
  shape2 g H W = true -> (i < H)%nat -> (j < W)%nat ->
  (forall i' j', (i' < H)%nat -> (j' < W)%nat -> lo <= grid_cell g i' j' <= hi) ->
  - ((hi - lo) / 2) <= grid_cell (correlate3 (pad_replicate_grid g) sobel_y) i j
                    <= (hi - lo) / 2 /\
  - ((hi - lo) / 2) <= grid_cell (correlate3 (pad_replicate_grid g) sobel_x) i j
                    <= (hi - lo) / 2.
Proof.
  intros Hs Hi Hj Hb.
  rewrite (sobel_y_is_row_gradient g H W) by assumption.
  rewrite (sobel_x_is_col_gradient g H W) by assumption.
  unfold row_gradient, col_gradient. cbv zeta.
  assert (He : forall r c, lo <= edge_cell g r c <= hi).
  { intros r c. apply (edge_cell_bounds g H W); try assumption; lia. }
  pose proof (He (Z.of_nat i + 1) (Z.of_nat j - 1))%Z.
  pose proof (He (Z.of_nat i + 1) (Z.of_nat j))%Z.
  pose proof (He (Z.of_nat i + 1) (Z.of_nat j + 1))%Z.
  pose proof (He (Z.of_nat i - 1) (Z.of_nat j - 1))%Z.
  pose proof (He (Z.of_nat i - 1) (Z.of_nat j))%Z.
  pose proof (He (Z.of_nat i - 1) (Z.of_nat j + 1))%Z.
  pose proof (He (Z.of_nat i) (Z.of_nat j - 1))%Z.
  pose proof (He (Z.of_nat i) (Z.of_nat j + 1))%Z.
  unfold Qdiv. change (/ 8) with (1 # 8). change (/ 2) with (1 # 2).
  split; split; lra.
Qed.

(** X8, gradient bound: with a positive [pixel_size], each component of
    the gradient returned for a trajectory point is at most
    (largest cell - smallest cell) / (2 * pixel_size) in absolute value. *)
Theorem gradient_is_bounded (self : SafetyBarrier) (sdf : tensor4)
        (trajs : list (list (Q * Q))) (B H W b n : nat) :
  shape4 sdf B 1 H W = true -> length trajs = B -> (1 <= H)%nat -> (1 <= W)%nat ->
  0 < pixel_size self ->
  (b < B)%nat -> (n < length (nth b trajs []))%nat ->
  exists h_val h_grad gf gl,
    get_gradients self sdf trajs = Returns (h_val, h_grad) /\
    nth n (nth b h_grad []) [] = [gf; gl] /\
    let spread := grid_max (nth 0 (nth b sdf []) []) - grid_min (nth 0 (nth b sdf []) []) in
    Qabs gf <= spread / (2 * pixel_size self) /\
    Qabs gl <= spread / (2 * pixel_size self).
Proof.
  intros Hs Ht HH HW Hp Hb Hn.
  destruct (get_gradients_returns self sdf trajs B H W Hs Ht HH) as (hv & hg & Hret & Hpt).
  destruct (Hpt b n Hb Hn) as [_ Hg]. cbv zeta in Hg.
  exists hv, hg. do 2 eexists. split; [exact Hret|]. split; [exact Hg|]. cbv zeta.
  pose proof (sdf_grid_shape sdf B H W b Hs Hb) as Hg2.
  set (g := nth 0 (nth b sdf []) []) in *.
  assert (Hcells : forall i j, (i < H)%nat -> (j < W)%nat ->
                     grid_min g <= grid_cell g i j <= grid_max g).
  { intros i j Hi Hj. apply (grid_min_max_bounds g H W); assumption. }
  assert (Hscale : forall s, - ((grid_max g - grid_min g) / 2) <= s <= (grid_max g - grid_min g) / 2 ->
             Qabs (s / pixel_size self) <= (grid_max g - grid_min g) / (2 * pixel_size self)).
  { intros s [Hs1 Hs2]. apply Qabs_Qle_condition.
    assert (Heq : (grid_max g - grid_min g) / (2 * pixel_size self)
                  == (grid_max g - grid_min g) / 2 / pixel_size self) by (field; lra).
    rewrite Heq. split.
    - apply Qle_shift_div_l; [exact Hp|].
      assert (Hm : - ((grid_max g - grid_min g) / 2 / pixel_size self) * pixel_size self
                   == - ((grid_max g - grid_min g) / 2)) by (field; lra).
      rewrite Hm. exact Hs1.
    - apply Qle_shift_div_r; [exact Hp|].
      assert (Hm : (grid_max g - grid_min g) / 2 / pixel_size self * pixel_size self
                   == (grid_max g - grid_min g) / 2) by (field; lra).
      rewrite Hm. exact Hs2. }
  split; apply Hscale.
  - apply (bilinear_sample_bounds _ H W); try assumption.
    + apply shape2_gradient_map; assumption.
    + intros i j Hi Hj.
      apply (sobel_maps_bounds g H W i j (grid_min g) (grid_max g) Hg2 Hi Hj Hcells).
  - apply (bilinear_sample_bounds _ H W); try assumption.
    + apply shape2_gradient_map; assumption.
    + intros i j Hi Hj.
      apply (sobel_maps_bounds g H W i j (grid_min g) (grid_max g) Hg2 Hi Hj Hcells).
Qed.

Lemma gradient_is_bounded_witness :
  exists h_val h_grad gf gl,
    get_gradients barrier_default sdf_small trajs_small = Returns (h_val, h_grad) /\
    nth 0 (nth 0 h_grad []) [] = [gf; gl] /\
    let spread := grid_max (nth 0 (nth 0 sdf_small []) [])
                  - grid_min (nth 0 (nth 0 sdf_small []) []) in
    Qabs gf <= spread / (2 * pixel_size barrier_default) /\
    Qabs gl <= spread / (2 * pixel_size barrier_default).
Proof.
  apply (gradient_is_bounded barrier_default sdf_small trajs_small 1 2 3 0 0).
  - reflexivity.
  - reflexivity.
  - lia.
  - lia.
  - reflexivity.
  - lia.
  - simpl. lia.
Defined.

(** ** From compute_sdf to get_gradients *)

Lemma multi_channel_raises (self : SafetyBarrier) (t : tensor4)
      (trajs : list (list (Q * Q))) (B C H W : nat) :
  shape4 t B C H W = true -> (1 <= B)%nat -> C <> 1%nat ->
  get_gradients self t trajs = Raises "RuntimeError".
Proof.
  intros Hs HB HC. apply shape4_iff in Hs. destruct Hs as [Hl Hs].
  specialize (Hs 0%nat ltac:(lia)). apply shape3_iff in Hs. destruct Hs as [Hc _].
  destruct t as [|cs t]; [simpl in Hl; lia|]. simpl in Hc.
  unfold get_gradients, conv2d, pad_replicate. cbn [map forallb].
  rewrite length_map.
  replace (length cs =? 1)%nat with false by (symmetry; apply Nat.eqb_neq; lia).
  reflexivity.
Qed.

(** X9, composition: the field [compute_sdf] returns for an occupancy
    input [B, C, H, W] with at least two channels is accepted by
    [get_gradients] with any [B] rows of trajectory points, while the
    occupancy input itself, having more than one channel, makes
    [get_gradients] raise [RuntimeError]. *)
Theorem compute_sdf_feeds_get_gradients (sigmoid : Q -> Q)
        (distance_transform : tensor4 -> tensor4) (self : SafetyBarrier)
        (semantics : tensor4) (threshold : Q) (trajs : list (list (Q * Q)))
        (B C H W : nat) :
  shape4 semantics B C H W = true -> (2 <= C)%nat ->
  (1 <= B)%nat -> (1 <= H)%nat -> (1 <= W)%nat ->
  shape4 (distance_transform (drivable_mask sigmoid semantics threshold)) B 1 H W = true ->
  shape4 (distance_transform (non_drivable_mask sigmoid semantics threshold)) B 1 H W = true ->
  length trajs = B ->
  (exists sdf h_val h_grad,
     compute_sdf sigmoid distance_transform self semantics threshold = Returns sdf /\
     get_gradients self sdf trajs = Returns (h_val, h_grad) /\
     length h_val = B /\ length h_grad = B) /\
  get_gradients self semantics trajs = Raises "RuntimeError".
Proof.
  intros Hs HC HB HH HW Hd Hn Ht. split.
  - pose proof (shape4_raw_sdf sigmoid distance_transform semantics threshold B 1 H W Hd Hn)
      as Hraw.
    eexists.
    destruct (get_gradients_rows self
                (map4 (fun v => v * pixel_size self - ego_radius self)
                      (raw_sdf sigmoid distance_transform semantics threshold))
                trajs B H W ltac:(rewrite shape4_map4; exact Hraw) Ht HH)
      as (hv & hg & Hret & Hlv & Hlg & _).
    exists hv, hg. split; [reflexivity|]. split; [exact Hret|]. split; assumption.
  - apply (multi_channel_raises self semantics trajs B C H W Hs HB). lia.
Qed.

Lemma compute_sdf_feeds_get_gradients_witness :
  (exists sdf h_val h_grad,
     compute_sdf sigmoid_rational distance_transform_spec barrier_default
       semantics_small (1 # 2) = Returns sdf /\
     get_gradients barrier_default sdf trajs_small = Returns (h_val, h_grad) /\
     length h_val = 1%nat /\ length h_grad = 1%nat) /\
  get_gradients barrier_default semantics_small trajs_small = Raises "RuntimeError".
Proof.
  apply (compute_sdf_feeds_get_gradients sigmoid_rational distance_transform_spec
           barrier_default semantics_small (1 # 2) trajs_small 1 2 2 3).
  - reflexivity.
  - lia.
  - lia.
  - lia.
  - lia.
  - reflexivity.
  - reflexivity.
  - reflexivity.
Defined.

(** ** The masks and the threshold *)

(** X10, threshold: raising the threshold never adds a drivable cell: a
    cell that is drivable at the higher threshold is drivable at the lower
    one, so the drivable mask can only shrink and the non-drivable mask
    only grow, cell by cell. *)
Theorem mask_shrinks_with_threshold (sigmoid : Q -> Q) (semantics : tensor4)
        (t1 t2 : Q) (B C H W b i j : nat) :
  shape4 semantics B C H W = true -> (2 <= C)%nat ->
  (b < B)%nat -> (i < H)%nat -> (j < W)%nat ->
  t1 <= t2 ->
  (cell (drivable_mask sigmoid semantics t2) b 0 i j = 1 ->
   cell (drivable_mask sigmoid semantics t1) b 0 i j = 1) /\
  cell (drivable_mask sigmoid semantics t2) b 0 i j
  <= cell (drivable_mask sigmoid semantics t1) b 0 i j /\
  cell (non_drivable_mask sigmoid semantics t1) b 0 i j
  <= cell (non_drivable_mask sigmoid semantics t2) b 0 i j.
Proof.
  intros Hs HC Hb Hi Hj Ht.
  rewrite !(cell_non_drivable_mask sigmoid semantics _ B C H W) by assumption.
  rewrite !(cell_drivable_mask sigmoid semantics _ B C H W) by assumption.
  unfold gt_float.
  destruct (Qlt_le_dec t2 (sigmoid (cell semantics b 1 i j))) as [H2|H2];
    destruct (Qlt_le_dec t1 (sigmoid (cell semantics b 1 i j))) as [H1|H1].
  - split; [reflexivity|]. split; discriminate.
  - exfalso. apply (Qlt_irrefl t1).
    eapply Qle_lt_trans; [exact Ht|]. eapply Qlt_le_trans; eassumption.
  - split; [intros Habs; discriminate Habs|]. split; discriminate.
  - split; [intros Habs; discriminate Habs|]. split; discriminate.
Qed.

Lemma mask_shrinks_with_threshold_witness :
  (cell (drivable_mask sigmoid_rational semantics_small (3 # 4)) 0 0 1 0 = 1 ->
   cell (drivable_mask sigmoid_rational semantics_small (1 # 2)) 0 0 1 0 = 1) /\
  cell (drivable_mask sigmoid_rational semantics_small (3 # 4)) 0 0 1 0
  <= cell (drivable_mask sigmoid_rational semantics_small (1 # 2)) 0 0 1 0 /\
  cell (non_drivable_mask sigmoid_rational semantics_small (1 # 2)) 0 0 1 0
  <= cell (non_drivable_mask sigmoid_rational semantics_small (3 # 4)) 0 0 1 0.
Proof.
  apply (mask_shrinks_with_threshold sigmoid_rational semantics_small (1 # 2) (3 # 4)
           1 2 2 3 0 1 0).
  - reflexivity.
  - lia.
  - lia.
  - lia.
  - lia.
  - discriminate.
Defined.

(** ** A constant added to the field *)

Lemma pixel_shift_term (g g' : grid) (H W : nat) (k w : Q) (iy ix : Z) :
  shape2 g H W = true -> shape2 g' H W = true -> (1 <= H)%nat ->
  (forall i j, (i < H)%nat -> (j < W)%nat -> grid_cell g' i j == grid_cell g i j + k) ->
  ((0 <= iy < Z.of_nat H)%Z /\ (0 <= ix < Z.of_nat W)%Z) \/ w == 0 ->
  pixel g' iy ix * w == pixel g iy ix * w + k * w.
Proof.
  intros Hs Hs' HH Hk Hin. unfold pixel.
  rewrite (shape2_hd g H W Hs HH), (shape2_hd g' H W Hs' HH).
  apply shape2_iff in Hs, Hs'. destruct Hs as [Hl _], Hs' as [Hl' _]. rewrite Hl, Hl'.
  unfold within_bounds.
  destruct ((0 <=? iy)%Z && (iy <? Z.of_nat H)%Z && (0 <=? ix)%Z && (ix <? Z.of_nat W)%Z)
    eqn:Hwb.
  - rewrite !andb_true_iff in Hwb. destruct Hwb as [[[Hy0 Hy1] Hx0] Hx1].
    apply Z.leb_le in Hy0, Hx0. apply Z.ltb_lt in Hy1, Hx1.
    rewrite (Hk (Z.to_nat iy) (Z.to_nat ix)) by lia. ring.
  - destruct Hin as [[Hy Hx]|H0].
    + exfalso. rewrite !andb_false_iff in Hwb.
      rewrite !Z.leb_gt, !Z.ltb_ge in Hwb. lia.
    + rewrite H0. ring.
Qed.

(** Sampling a field raised by [k] gives the sample raised by [k]: the
    weights of the cells inside the grid sum to one. *)
Lemma bilinear_sample_shift (g g' : grid) (H W : nat) (k x y : Q) :
  shape2 g H W = true -> shape2 g' H W = true -> (1 <= H)%nat -> (1 <= W)%nat ->
  (forall i j, (i < H)%nat -> (j < W)%nat -> grid_cell g' i j == grid_cell g i j + k) ->
  bilinear_sample g' x y == bilinear_sample g x y + k.
Proof.
  intros Hs Hs' HH HW Hk. unfold bilinear_sample.
  rewrite (shape2_hd g H W Hs HH), (shape2_hd g' H W Hs' HH).
  pose proof Hs as Ha. apply shape2_iff in Ha. destruct Ha as [Hl _].
  pose proof Hs' as Ha'. apply shape2_iff in Ha'. destruct Ha' as [Hl' _].
  rewrite Hl, Hl'.
  destruct (axis_weights (unnormalize x W) W HW) as (Hkx & Hx0 & Hx1 & Hxs & Hxe).
  destruct (axis_weights (unnormalize y H) H HH) as (Hky & Hy0 & Hy1 & Hys & Hye).
  cbv zeta.
  set (cx := clip_coordinates (unnormalize x W) W) in *.
  set (cy := clip_coordinates (unnormalize y H) H) in *.
  set (kx := Qfloor cx) in *. set (ky := Qfloor cy) in *.
  set (wx0 := inject_Z (kx + 1) - cx) in *. set (wx1 := cx - inject_Z kx) in *.
  set (wy0 := inject_Z (ky + 1) - cy) in *. set (wy1 := cy - inject_Z ky) in *.
  rewrite (pixel_shift_term g g' H W k (wx0 * wy0) ky kx Hs Hs' HH Hk) by (left; lia).
  rewrite (pixel_shift_term g g' H W k (wx1 * wy0) ky (kx + 1) Hs Hs' HH Hk)
    by (destruct Hxe as [Hin|Hz]; [left; lia | right; rewrite Hz; ring]).
  rewrite (pixel_shift_term g g' H W k (wx0 * wy1) (ky + 1) kx Hs Hs' HH Hk)
    by (destruct Hye as [Hin|Hz]; [left; lia | right; rewrite Hz; ring]).
  rewrite (pixel_shift_term g g' H W k (wx1 * wy1) (ky + 1) (kx + 1) Hs Hs' HH Hk)
    by (destruct Hxe as [Hinx|Hz]; [|right; rewrite Hz; ring];
        destruct Hye as [Hiny|Hz]; [left; lia | right; rewrite Hz; ring]).
  assert (Hsum : k * (wx0 * wy0) + k * (wx1 * wy0) + k * (wx0 * wy1) + k * (wx1 * wy1) == k).
  { transitivity (k * ((wx0 + wx1) * (wy0 + wy1))); [ring|]. rewrite Hxs, Hys. ring. }
  rewrite <- Hsum at 5. ring.
Qed.

(** The Sobel windows do not see a constant: their weights sum to zero. *)
Lemma gradient_maps_shift (g g' : grid) (H W i j : nat) (k : Q) :
  shape2 g H W = true -> shape2 g' H W = true -> (i < H)%nat -> (j < W)%nat ->
  (forall i' j', (i' < H)%nat -> (j' < W)%nat -> grid_cell g' i' j' == grid_cell g i' j' + k) ->
  grid_cell (correlate3 (pad_replicate_grid g') sobel_y) i j
  == grid_cell (correlate3 (pad_replicate_grid g) sobel_y) i j + 0 /\
  grid_cell (correlate3 (pad_replicate_grid g') sobel_x) i j
  == grid_cell (correlate3 (pad_replicate_grid g) sobel_x) i j + 0.
Proof.
  intros Hs Hs' Hi Hj Hk.
  rewrite !(sobel_y_is_row_gradient _ H W) by assumption.
  rewrite !(sobel_x_is_col_gradient _ H W) by assumption.
  assert (He : forall r c, edge_cell g' r c == edge_cell g r c + k).
  { intros r c. unfold edge_cell.
    rewrite (shape2_hd g H W Hs ltac:(lia)), (shape2_hd g' H W Hs' ltac:(lia)).
    pose proof Hs as Ha. apply shape2_iff in Ha. destruct Ha as [Hl _].
    pose proof Hs' as Ha'. apply shape2_iff in Ha'. destruct Ha' as [Hl' _].
    rewrite Hl, Hl'. apply Hk; apply clamp_index_lt; lia. }
  unfold row_gradient, col_gradient. cbv zeta. rewrite !He. split; field.
Qed.

(** X11, margin and gradient: running the pipeline with
    [ego_radius + delta] in place of [ego_radius] lowers the clearance
    value of every trajectory point by [delta] and leaves both components
    of its gradient as they are. *)
Theorem margin_leaves_gradient (sigmoid : Q -> Q) (distance_transform : tensor4 -> tensor4)
        (self : SafetyBarrier) (semantics : tensor4) (threshold delta : Q)
        (trajs : list (list (Q * Q))) (B C H W b n : nat) :
  shape4 semantics B C H W = true -> (2 <= C)%nat -> (1 <= H)%nat -> (1 <= W)%nat ->
  shape4 (distance_transform (drivable_mask sigmoid semantics threshold)) B 1 H W = true ->
  shape4 (distance_transform (non_drivable_mask sigmoid semantics threshold)) B 1 H W = true ->
  length trajs = B -> (b < B)%nat -> (n < length (nth b trajs []))%nat ->
  let self' := {| pixel_size := pixel_size self;
                  ego_radius := ego_radius self + delta;
                  bev_range := bev_range self |} in
  exists sdf sdf' h_val h_grad h_val' h_grad' v gf gl v' gf' gl',
    compute_sdf sigmoid distance_transform self semantics threshold = Returns sdf /\
    compute_sdf sigmoid distance_transform self' semantics threshold = Returns sdf' /\
    get_gradients self sdf trajs = Returns (h_val, h_grad) /\
    get_gradients self' sdf' trajs = Returns (h_val', h_grad') /\
    nth n (nth b h_val []) [] = [v] /\ nth n (nth b h_grad []) [] = [gf; gl] /\
    nth n (nth b h_val' []) [] = [v'] /\ nth n (nth b h_grad' []) [] = [gf'; gl'] /\
    v' == v - delta /\ gf' == gf /\ gl' == gl.
Proof.
  intros Hs HC HH HW Hd Hn Ht Hb Hpt. cbv zeta.
  pose proof (shape4_raw_sdf sigmoid distance_transform semantics threshold B 1 H W Hd Hn)
    as Hraw.
  set (raw := raw_sdf sigmoid distance_transform semantics threshold) in *.
  set (f := fun v => v * pixel_size self - ego_radius self).
  set (f' := fun v => v * pixel_size self - (ego_radius self + delta)).
  assert (Hsf : shape4 (map4 f raw) B 1 H W = true) by (rewrite shape4_map4; exact Hraw).
  assert (Hsf' : shape4 (map4 f' raw) B 1 H W = true) by (rewrite shape4_map4; exact Hraw).
  exists (map4 f raw), (map4 f' raw).
  destruct (get_gradients_returns self (map4 f raw) trajs B H W Hsf Ht HH)
    as (hv & hg & Hret & Hp).
  destruct (get_gradients_returns
              {| pixel_size := pixel_size self;
                 ego_radius := ego_radius self + delta;
                 bev_range := bev_range self |} (map4 f' raw) trajs B H W Hsf' Ht HH)
    as (hv' & hg' & Hret' & Hp').
  destruct (Hp b n Hb Hpt) as [Hv Hg]. destruct (Hp' b n Hb Hpt) as [Hv' Hg'].
  cbv zeta in Hv, Hg, Hv', Hg'.
  change (metric_to_grid_point
            {| pixel_size := pixel_size self;
               ego_radius := ego_radius self + delta;
               bev_range := bev_range self |} H W)
    with (metric_to_grid_point self H W) in Hv', Hg'.
  cbn [pixel_size] in Hg'.
  exists hv, hg, hv', hg'. do 6 eexists.
  split; [reflexivity|]. split; [reflexivity|].
  split; [exact Hret|]. split; [exact Hret'|].
  split; [exact Hv|]. split; [exact Hg|]. split; [exact Hv'|]. split; [exact Hg'|].
  pose proof (sdf_grid_shape _ B H W b Hsf Hb) as Hg2.
  pose proof (sdf_grid_shape _ B H W b Hsf' Hb) as Hg2'.
  assert (Hcells : forall i j, (i < H)%nat -> (j < W)%nat ->
            grid_cell (nth 0 (nth b (map4 f' raw) []) []) i j
            == grid_cell (nth 0 (nth b (map4 f raw) []) []) i j + - delta).
  { intros i j Hi Hj.
    change (cell (map4 f' raw) b 0 i j == cell (map4 f raw) b 0 i j + - delta).
    rewrite !(cell_map4 _ _ B 1 H W) by in_range. unfold f, f'. ring. }
  assert (Hmaps : forall weight x y,
            (forall i j, (i < H)%nat -> (j < W)%nat ->
               grid_cell (correlate3 (pad_replicate_grid (nth 0 (nth b (map4 f' raw) []) []))
                                     weight) i j
               == grid_cell (correlate3 (pad_replicate_grid (nth 0 (nth b (map4 f raw) []) []))
                                        weight) i j + 0) ->
            bilinear_sample
              (correlate3 (pad_replicate_grid (nth 0 (nth b (map4 f' raw) []) [])) weight) x y
            / pixel_size self
            == bilinear_sample
                 (correlate3 (pad_replicate_grid (nth 0 (nth b (map4 f raw) []) [])) weight) x y
               / pixel_size self).
  { intros weight x y Hw.
    rewrite (bilinear_sample_shift _ _ H W 0 x y
               (shape2_gradient_map _ weight H W Hg2 HH HW)
               (shape2_gradient_map _ weight H W Hg2' HH HW) HH HW Hw).
    unfold Qdiv. ring. }
  split; [|split].
  - rewrite (bilinear_sample_shift _ _ H W (- delta) _ _ Hg2 Hg2' HH HW Hcells). ring.
  - apply Hmaps. intros i j Hi Hj.
    apply (gradient_maps_shift _ _ H W i j (- delta) Hg2 Hg2' Hi Hj Hcells).
  - apply Hmaps. intros i j Hi Hj.
    apply (gradient_maps_shift _ _ H W i j (- delta) Hg2 Hg2' Hi Hj Hcells).
Qed.

Lemma margin_leaves_gradient_witness :
  exists sdf sdf' h_val h_grad h_val' h_grad' v gf gl v' gf' gl',
    compute_sdf sigmoid_rational distance_transform_spec barrier_default
      semantics_small (1 # 2) = Returns sdf /\
    compute_sdf sigmoid_rational distance_transform_spec
      {| pixel_size := pixel_size barrier_default;
         ego_radius := ego_radius barrier_default + (3 # 4);
         bev_range := bev_range barrier_default |} semantics_small (1 # 2) = Returns sdf' /\
    get_gradients barrier_default sdf trajs_small = Returns (h_val, h_grad) /\
    get_gradients
      {| pixel_size := pixel_size barrier_default;
         ego_radius := ego_radius barrier_default + (3 # 4);
         bev_range := bev_range barrier_default |} sdf' trajs_small
    = Returns (h_val', h_grad') /\
    nth 1 (nth 0 h_val []) [] = [v] /\ nth 1 (nth 0 h_grad []) [] = [gf; gl] /\
    nth 1 (nth 0 h_val' []) [] = [v'] /\ nth 1 (nth 0 h_grad' []) [] = [gf'; gl'] /\
    v' == v - (3 # 4) /\ gf' == gf /\ gl' == gl.
Proof.
  apply (margin_leaves_gradient sigmoid_rational distance_transform_spec barrier_default
           semantics_small (1 # 2) (3 # 4) trajs_small 1 2 2 3 0 1).
  - reflexivity.
  - lia.
  - lia.
  - lia.
  - reflexivity.
  - reflexivity.
  - reflexivity.
  - lia.
  - simpl. lia.
Defined.

(** ** Orientation of the grid coordinates *)

Lemma clamp_monotone (v v' lo hi : Q) : v <= v' -> clamp v lo hi <= clamp v' lo hi.
Proof.
  intros Hv. unfold clamp. apply Q.min_le_compat_r, Q.max_le_compat_r, Hv.
Qed.

Lemma div_monotone (u u' d : Q) : 0 < d -> u <= u' -> u / d <= u' / d.
Proof.
  intros Hd Hu. unfold Qdiv. apply Qmult_le_compat_r; [exact Hu|].
  apply Qlt_le_weak, Qinv_lt_0_compat, Hd.
Qed.

(** X13, orientation: with a positive [pixel_size], a point further
    forward never gets a smaller vertical coordinate and a point further
    to the left (larger lateral offset) never gets a smaller horizontal
    coordinate; the vertical coordinate does not depend on the lateral
    offset, nor the horizontal one on the forward offset. *)
Theorem metric_to_grid_orientation (self : SafetyBarrier) (H W : nat) (p q : Q * Q) :
  0 < pixel_size self -> (2 <= H)%nat -> (2 <= W)%nat ->
  (fst p <= fst q ->
   snd (metric_to_grid_point self H W p) <= snd (metric_to_grid_point self H W q)) /\
  (snd p <= snd q ->
   fst (metric_to_grid_point self H W p) <= fst (metric_to_grid_point self H W q)) /\
  (fst p = fst q ->
   snd (metric_to_grid_point self H W p) = snd (metric_to_grid_point self H W q)) /\
  (snd p = snd q ->
   fst (metric_to_grid_point self H W p) = fst (metric_to_grid_point self H W q)).
Proof.
  intros Hp HH HW.
  assert (HdH : 0 < inject_Z (Z.of_nat H - 1)).
  { change 0 with (inject_Z 0). rewrite <- Zlt_Qlt. lia. }
  assert (HdW : 0 < inject_Z (Z.of_nat W - 1)).
  { change 0 with (inject_Z 0). rewrite <- Zlt_Qlt. lia. }
  unfold metric_to_grid_point. cbn [fst snd].
  split; [|split; [|split]].
  - intros Hf. apply clamp_monotone.
    pose proof (div_monotone _ _ _ HdH (div_monotone _ _ _ Hp Hf)). lra.
  - intros Hl. apply clamp_monotone.
    assert (Hx : snd p / pixel_size self + inject_Z (Z.of_nat W) / 2
                 <= snd q / pixel_size self + inject_Z (Z.of_nat W) / 2).
    { pose proof (div_monotone _ _ _ Hp Hl). lra. }
    pose proof (div_monotone _ _ _ HdW Hx). lra.
  - intros Hf. rewrite Hf. reflexivity.
  - intros Hl. rewrite Hl. reflexivity.
Qed.

Lemma metric_to_grid_orientation_witness :
  snd (metric_to_grid_point barrier_default 2 3 (0, 0))
  <= snd (metric_to_grid_point barrier_default 2 3 (1 # 8, - (1 # 4))) /\
  fst (metric_to_grid_point barrier_default 2 3 (1 # 8, - (1 # 4)))
  <= fst (metric_to_grid_point barrier_default 2 3 (0, 0)).
Proof.
  split.
  - apply (proj1 (metric_to_grid_orientation barrier_default 2 3 (0, 0) (1 # 8, - (1 # 4))
                    eq_refl (le_n 2) ltac:(lia))).
    discriminate.
  - apply (proj1 (proj2 (metric_to_grid_orientation barrier_default 2 3
                           (1 # 8, - (1 # 4)) (0, 0) eq_refl (le_n 2) ltac:(lia)))).
    discriminate.
Defined.

(** ** The channels compute_sdf reads *)

Lemma road_channel_agree (s s' : tensor4) (B C C' H W : nat) :
  shape4 s B C H W = true -> shape4 s' B C' H W = true ->
  (2 <= C)%nat -> (2 <= C')%nat ->
  (forall b, (b < B)%nat -> nth 1 (nth b s []) [] = nth 1 (nth b s' []) []) ->
  map (slice 1 2) s = map (slice 1 2) s'.
Proof.
  intros Hs Hs' HC HC' Hch.
  apply shape4_iff in Hs, Hs'. destruct Hs as [HB Hs], Hs' as [HB' Hs'].
  apply (nth_ext _ _ [] []); [rewrite !length_map; lia|].
  intros b Hb. rewrite length_map in Hb.
  rewrite (nth_map_in (slice 1 2) s b [] []) by lia.
  rewrite (nth_map_in (slice 1 2) s' b [] []) by lia.
  specialize (Hs b ltac:(lia)). specialize (Hs' b ltac:(lia)).
  apply shape3_iff in Hs, Hs'. destruct Hs as [Hl _], Hs' as [Hl' _].
  rewrite (slice_1_2 (nth b s []) []) by lia.
  rewrite (slice_1_2 (nth b s' []) []) by lia.
  rewrite (Hch b ltac:(lia)). reflexivity.
Qed.

(** X14, channels: [compute_sdf] reads channel 1 only.  Two occupancy
    inputs of the same batch size that agree on channel 1 give the same
    field, whatever their other channels hold and however many there are. *)
Theorem only_road_channel_is_read (sigmoid : Q -> Q) (distance_transform : tensor4 -> tensor4)
        (self : SafetyBarrier) (semantics semantics' : tensor4) (threshold : Q)
        (B C C' H W : nat) :
  shape4 semantics B C H W = true -> shape4 semantics' B C' H W = true ->
  (2 <= C)%nat -> (2 <= C')%nat ->
  (forall b, (b < B)%nat -> nth 1 (nth b semantics []) [] = nth 1 (nth b semantics' []) []) ->
  compute_sdf sigmoid distance_transform self semantics threshold
  = compute_sdf sigmoid distance_transform self semantics' threshold.
Proof.
  intros Hs Hs' HC HC' Hch.
  unfold compute_sdf, raw_sdf, non_drivable_mask, drivable_mask, road_prob.
  rewrite (road_channel_agree semantics semantics' B C C' H W Hs Hs' HC HC' Hch).
  reflexivity.
Qed.

Lemma only_road_channel_is_read_witness :
  compute_sdf sigmoid_rational distance_transform_spec barrier_default semantics_small (1 # 2)
  = compute_sdf sigmoid_rational distance_transform_spec barrier_default
      semantics_small_other (1 # 2).
Proof.
  apply (only_road_channel_is_read sigmoid_rational distance_transform_spec barrier_default
           semantics_small semantics_small_other (1 # 2) 1 2 3 2 3).
  - reflexivity.
  - reflexivity.
  - lia.
  - lia.
  - intros b Hb. destruct b as [|b]; [reflexivity | lia].
Defined.
